(** * Snake multiplayer front end: a shallow embedding of the client

    The development follows the TypeScript sources of the repository:
    - [UseWebSocket]    : hooks/useWebSocket.ts  (connection, send path)
    - [EffectIndicator] : components/EffectIndicator.tsx (countdown)
    - [Keyboard], [Home], [Game] : app/page.tsx and app/game/page.tsx
    - [GameCanvas]      : components/GameCanvas.tsx (canvas rendering)

    Conventions.  Times are integer milliseconds ([Z], the value of
    [Date.now()]).  Grid coordinates and scores are integers.  A value of
    type [T | null] is an [option T].  A line width of 0.5 and the quotient
    [remaining / 1000] are rationals ([Q]).  The percentage of the effect
    indicator is computed as the code computes it, in IEEE 754 double
    precision ([Binary64], on the library's [SpecFloat]).  An operation
    that can raise (a property read on [null]) lives in the [outcome]
    type.  Timers are ideal: the callback of a timeout or
    of an interval runs at its due time, and handling an event takes no
    time. *)

From Stdlib Require Import ZArith List String Ascii Bool Lia QArith Qround.
From Stdlib Require Import DecimalString SpecFloat.
Import ListNotations.
Local Open Scope string_scope.
Local Open Scope list_scope.
Local Open Scope Z_scope.

Set Implicit Arguments.

(** ** Outcomes of operations that may raise *)

Inductive outcome (A : Type) : Type :=
| Ok (a : A)
| Throw (err : string).
Arguments Ok {A} a.
Arguments Throw {A} err.

Definition bind {A B} (m : outcome A) (k : A -> outcome B) : outcome B :=
  match m with
  | Ok a => k a
  | Throw e => Throw e
  end.

Notation "x <- m ;; k" := (bind m (fun x => k))
  (at level 61, m at next level, right associativity).

(** ** Data received from the server (interfaces of useWebSocket.ts) *)

Inductive EffectType := speedBoost | slowDown.

Record ActiveEffect := mkEffect {
  eff_type : EffectType;
  endTime : Z
}.

Record Point := mkPoint { px : Z; py : Z }.

Record Snake := mkSnake {
  id : string;
  body : list Point;
  alive : bool;
  score : Z;
  activeEffects : list ActiveEffect
}.

Inductive FruitType := apple | mango.

Record Fruit := mkFruit { fx : Z; fy : Z; fruit_type : FruitType }.

Inductive Status := lobby | playing | finished.

Record GameState := mkGameState {
  status : Status;
  snakes : list Snake;
  food : list Fruit;
  gameWidth : Z;
  gameHeight : Z
}.

Record LobbyStatus := mkLobbyStatus {
  lobby_status : string;
  playerCount : Z;
  players : list string
}.

Record Direction := mkDirection { dx : Z; dy : Z }.

(** JavaScript truthiness of a [string | null]: the empty string and
    [null] are falsy. *)
Definition truthy (s : option string) : bool :=
  match s with
  | Some v => negb (v =? "")%string
  | None => false
  end.

(** [a || null] on a [string | undefined]. *)
Definition or_null (s : option string) : option string :=
  if truthy s then s else None.

(** [snake.id === playerId] with [playerId : string | null]. *)
Definition is_id (playerId : option string) (s : Snake) : bool :=
  match playerId with
  | Some p => (id s =? p)%string
  | None => false
  end.

(** ** hooks/useWebSocket.ts *)

Module UseWebSocket.

(** What the client hands to the transport. *)
Inductive Emitted :=
| EmitMove (direction : Direction)
| EmitStartGame.

(** The socket object: only the calls of [emit] made on it are
    observed. *)
Record Socket := mkSocket { emitted : list Emitted }.

Definition emit (s : option Socket) (m : Emitted) : outcome Socket :=
  match s with
  | Some sock => Ok (mkSocket (emitted sock ++ [m]))
  | None => Throw "TypeError: socketRef.current is null"
  end.

(** The hook's state.  A received game state is paired with the stamp
    of the object that carries it: two states received separately are
    different objects even when their contents agree, and React
    compares dependencies by reference. *)
Record State := mkState {
  gameState : option (nat * GameState);
  lobbyStatus : option LobbyStatus;
  isConnected : bool;
  playerId : option string;
  socketRef : option Socket;
  allocated : nat
}.

(** First render: all [useState] initial values, [socketRef] empty. *)
Definition initial : State :=
  mkState None None false None None 0.

(** The mount effect creates the socket and stores it. *)
Definition mount (s : State) : State :=
  mkState (gameState s) (lobbyStatus s) (isConnected s) (playerId s)
          (Some (mkSocket [])) (allocated s).

(** Events the socket delivers to the registered listeners.  [connect]
    carries the value of [socket.id] at that moment. *)
Inductive Event :=
| connect (socket_id : option string)
| lobbyUpdate (st : LobbyStatus)
| gameStateEv (st : GameState)
| gameStarted
| disconnect
| connect_error.

Definition on (e : Event) (s : State) : State :=
  match e with
  | connect sid =>
      (* setIsConnected(true); setPlayerId(socket.id || null) *)
      mkState (gameState s) (lobbyStatus s) true (or_null sid)
              (socketRef s) (allocated s)
  | lobbyUpdate st =>
      mkState (gameState s) (Some st) (isConnected s) (playerId s)
              (socketRef s) (allocated s)
  | gameStateEv st =>
      mkState (Some (allocated s, st)) (lobbyStatus s) (isConnected s)
              (playerId s) (socketRef s) (S (allocated s))
  | gameStarted => s
  | disconnect =>
      (* setIsConnected(false) *)
      mkState (gameState s) (lobbyStatus s) false (playerId s)
              (socketRef s) (allocated s)
  | connect_error => s
  end.

Definition run (evs : list Event) (s : State) : State :=
  fold_left (fun acc e => on e acc) evs s.

Definition with_socket (s : State) (sock : Socket) : State :=
  mkState (gameState s) (lobbyStatus s) (isConnected s) (playerId s)
          (Some sock) (allocated s).

(** [if (socketRef.current && isConnected) socketRef.current.emit(...)] *)
Definition sendMove (direction : Direction) (s : State) : outcome State :=
  if match socketRef s with Some _ => true | None => false end
     && isConnected s
  then sock <- emit (socketRef s) (EmitMove direction) ;;
       Ok (with_socket s sock)
  else Ok s.

Definition startGame (s : State) : outcome State :=
  if match socketRef s with Some _ => true | None => false end
     && isConnected s
  then sock <- emit (socketRef s) EmitStartGame ;;
       Ok (with_socket s sock)
  else Ok s.

(** All the calls of [emit] made so far. *)
Definition sent (s : State) : list Emitted :=
  match socketRef s with
  | Some sock => emitted sock
  | None => []
  end.

End UseWebSocket.

(** ** JavaScript numbers: IEEE 754 double precision *)

Module Binary64.

Definition prec : Z := 53.
Definition emax : Z := 1024.

Definition double : Set := spec_float.

(** The double nearest to an integer; it is the integer itself up to
    2^53 in absolute value. *)
Definition of_Z (z : Z) : double := binary_normalize prec emax z 0 false.

(** [x / y] and [x * y], rounded to nearest, ties to even. *)
Definition div (x y : double) : double := SFdiv prec emax x y.
Definition mul (x y : double) : double := SFmul prec emax x y.

End Binary64.

(** ** components/EffectIndicator.tsx *)

Module EffectIndicator.

(** The component instance: the [effect] prop of the last render, the
    [timeLeft] state, and the interval started by the effect (the
    object captured by its callback and the time of its next tick). *)
Record State := mkState {
  effect : option ActiveEffect;
  timeLeft : Z;
  updateTimer : option (ActiveEffect * Z)
}.

(** Body of [useEffect(..., [effect])], run at time [now] for the prop
    [e]; the cleanup of the previous run has cleared its interval. *)
Definition run_effect (now : Z) (e : option ActiveEffect) (tl : Z) : State :=
  match e with
  | None => mkState None 0 None
  | Some eff => mkState (Some eff) tl (Some (eff, now + 100))
  end.

(** First render, [useState(0)]. *)
Definition mount (now : Z) (e : option ActiveEffect) : State :=
  run_effect now e 0.

(** A render with a different [effect] object (or [null]). *)
Definition setEffect (now : Z) (e : option ActiveEffect) (s : State) : State :=
  run_effect now e (timeLeft s).

(** The interval callback, run at time [now]. *)
Definition tick (now : Z) (s : State) : State :=
  match updateTimer s with
  | None => s
  | Some (eff, due) =>
      let remaining := Z.max 0 (endTime eff - now) in
      let remainingSeconds := Qceiling (inject_Z remaining / 1000) in
      mkState (effect s) remainingSeconds
              (if remaining <=? 0 then None else Some (eff, due + 100))
  end.

(** Let the clock reach [t]: the interval fires at each of its due
    times up to [t]. *)
Fixpoint advance_fuel (fuel : nat) (t : Z) (s : State) : State :=
  match fuel with
  | O => s
  | S k =>
      match updateTimer s with
      | Some (_, due) =>
          if due <=? t then advance_fuel k t (tick due s) else s
      | None => s
      end
  end.

Definition advance (t : Z) (s : State) : State :=
  match updateTimer s with
  | Some (_, due) => advance_fuel (Z.to_nat ((t - due) / 100 + 1)) t s
  | None => s
  end.

(** What the component returns. *)
Record View := mkView {
  label : string;
  seconds : Z;
  description : string;
  percentage : Binary64.double;
  bgGradient : string
}.

Definition render (s : State) : option View :=
  match effect s with
  | None => None
  | Some eff =>
      if timeLeft s <=? 0 then None
      else
        let percentage :=
          Binary64.mul
            (Binary64.div (Binary64.of_Z (timeLeft s)) (Binary64.of_Z 10))
            (Binary64.of_Z 100) in
        let isSpeedBoost :=
          match eff_type eff with speedBoost => true | slowDown => false end in
        Some (mkView
                (if isSpeedBoost then "🍊 Laranja" else "🍇 Uva")
                (timeLeft s)
                (if isSpeedBoost then "+50% velocidade" else "-50% velocidade")
                percentage
                (if isSpeedBoost
                 then "linear-gradient(to right, #f97316, #eab308)"
                 else "linear-gradient(to right, #a855f7, #6366f1)"))
  end.

Definition visible (s : State) : bool :=
  match render s with Some _ => true | None => false end.

(** States the component can be in: mounted, then re-rendered with new
    props and ticked as time passes. *)
Inductive reachable : State -> Prop :=
| reach_mount now e : reachable (mount now e)
| reach_set now e s : reachable s -> reachable (setEffect now e s)
| reach_tick now s : reachable s -> reachable (tick now s).

End EffectIndicator.

(** ** Keyboard handler shared by app/page.tsx and app/game/page.tsx *)

Module Keyboard.

Definition lower_ascii (c : ascii) : ascii :=
  let n := nat_of_ascii c in
  if (65 <=? n)%nat && (n <=? 90)%nat then ascii_of_nat (n + 32) else c.

(** [String.prototype.toLowerCase] on the ASCII range. *)
Fixpoint toLowerCase (s : string) : string :=
  match s with
  | EmptyString => EmptyString
  | String c rest => String (lower_ascii c) (toLowerCase rest)
  end.

(** The [switch (event.key.toLowerCase())]. *)
Definition key_direction (key : string) : option Direction :=
  let k := toLowerCase key in
  if (k =? "arrowup")%string || (k =? "w")%string then Some (mkDirection 0 (-1))
  else if (k =? "arrowdown")%string || (k =? "s")%string then Some (mkDirection 0 1)
  else if (k =? "arrowleft")%string || (k =? "a")%string then Some (mkDirection (-1) 0)
  else if (k =? "arrowright")%string || (k =? "d")%string then Some (mkDirection 1 0)
  else None.

Section Handler.
Variable T : Type.
(** The send path the handler closes over. *)
Variable sendMove : Direction -> T -> outcome T.

(** [handleKeyDown]: the state of the send path after the event and
    the value of [lastKeyTime] after it. *)
Definition handleKeyDown (lastKeyTime : Z) (key : string) (now : Z) (st : T)
  : outcome (T * Z) :=
  if now - lastKeyTime <? 50 then Ok (st, lastKeyTime)
  else
    match key_direction key with
    | None => Ok (st, lastKeyTime)
    | Some direction =>
        st' <- sendMove direction st ;;
        Ok (st', now)
    end.
End Handler.

(** A send path that only counts how often it is taken. *)
Definition counting (d : Direction) (calls : list Direction)
  : outcome (list Direction) := Ok (calls ++ [d]).

End Keyboard.

(** ** app/page.tsx *)

Module Home.

(** Dependency array of the death-detection effect:
    [[gameState?.snakes, gameState?.status, playerId, showGame]].  The
    array of snakes is compared by reference, hence by the stamp of the
    game state that holds it. *)
Record DeathDeps := mkDeathDeps {
  dep_snakes : option nat;
  dep_status : option Status;
  dep_playerId : option string;
  dep_showGame : bool
}.

Definition Status_eq_dec (a b : Status) : {a = b} + {a <> b}.
Proof. decide equality. Defined.

Definition StatusDeps_eq_dec (a b : option (option Status))
  : {a = b} + {a <> b}.
Proof. repeat decide equality. Defined.

Definition DeathDeps_eq_dec (a b : option DeathDeps) : {a = b} + {a <> b}.
Proof.
  decide equality. decide equality.
  - apply Bool.bool_dec.
  - decide equality. apply string_dec.
  - decide equality. apply Status_eq_dec.
  - decide equality. apply Nat.eq_dec.
Defined.

(** The component instance.  [timeouts] holds the due times of the
    callbacks handed to [setTimeout] that have not run yet (the code
    keeps no handle on them); [statusDeps] and [deathDeps] are the
    dependency arrays of the two effects at the last commit. *)
Record State := mkState {
  ws : UseWebSocket.State;
  showGame : bool;
  lastKeyTime : Z;
  activeEffect : option ActiveEffect;
  timeouts : list Z;
  statusDeps : option (option Status);
  deathDeps : option DeathDeps
}.

Definition set_ws (w : UseWebSocket.State) (h : State) : State :=
  mkState w (showGame h) (lastKeyTime h) (activeEffect h) (timeouts h)
          (statusDeps h) (deathDeps h).

Definition setShowGame (b : bool) (h : State) : State :=
  mkState (ws h) b (lastKeyTime h) (activeEffect h) (timeouts h)
          (statusDeps h) (deathDeps h).

Definition setLastKeyTime (t : Z) (h : State) : State :=
  mkState (ws h) (showGame h) t (activeEffect h) (timeouts h)
          (statusDeps h) (deathDeps h).

Definition setActiveEffect (e : option ActiveEffect) (h : State) : State :=
  mkState (ws h) (showGame h) (lastKeyTime h) e (timeouts h)
          (statusDeps h) (deathDeps h).

(** [setTimeout(() => setShowGame(false), delay)] at time [now]. *)
Definition setTimeout (due : Z) (h : State) : State :=
  mkState (ws h) (showGame h) (lastKeyTime h) (activeEffect h)
          (timeouts h ++ [due]) (statusDeps h) (deathDeps h).

Definition set_timeouts (l : list Z) (h : State) : State :=
  mkState (ws h) (showGame h) (lastKeyTime h) (activeEffect h) l
          (statusDeps h) (deathDeps h).

Definition record_deps (d1 : option Status) (d2 : DeathDeps) (h : State)
  : State :=
  mkState (ws h) (showGame h) (lastKeyTime h) (activeEffect h) (timeouts h)
          (Some d1) (Some d2).

(** [gameState?.status] and the reference [gameState?.snakes]. *)
Definition cur_status (h : State) : option Status :=
  match UseWebSocket.gameState (ws h) with
  | Some (_, gs) => Some (status gs)
  | None => None
  end.

Definition cur_snakes (h : State) : option nat :=
  match UseWebSocket.gameState (ws h) with
  | Some (stamp, _) => Some stamp
  | None => None
  end.

Definition cur_deathDeps (h : State) : DeathDeps :=
  mkDeathDeps (cur_snakes h) (cur_status h)
              (UseWebSocket.playerId (ws h)) (showGame h).

(** An effect reads the values of the render it belongs to ([r]) and
    queues its state updates, which are applied to [acc]. *)

(** [if (gameState?.status === 'playing') setShowGame(true)] *)
Definition statusEffect (r acc : State) : State :=
  match cur_status r with
  | Some playing => setShowGame true acc
  | _ => acc
  end.

(** The death-detection effect (lines 23-41). *)
Definition deathEffect (now : Z) (r acc : State) : State :=
  match UseWebSocket.gameState (ws r) with
  | None => acc
  | Some (_, gameState) =>
      let playerId := UseWebSocket.playerId (ws r) in
      if negb (truthy playerId) || negb (showGame r) then acc
      else
        let playerSnake := find (is_id playerId) (snakes gameState) in
        let acc1 :=
          match playerSnake with
          | Some s => if negb (alive s) then setTimeout (now + 1000) acc
                      else acc
          | None => acc
          end in
        match playerSnake with
        | Some s =>
            if alive s && (0 <? Z.of_nat (List.length (activeEffects s)))
            then setActiveEffect (nth_error (activeEffects s) 0) acc1
            else setActiveEffect None acc1
        | None => setActiveEffect None acc1
        end
  end.

(** One render followed by its effects: an effect runs when its
    dependency array differs from the one of the previous commit. *)
Definition commit (now : Z) (r : State) : State :=
  let d1 := cur_status r in
  let d2 := cur_deathDeps r in
  let acc0 := record_deps d1 d2 r in
  let acc1 :=
    if StatusDeps_eq_dec (statusDeps r) (Some d1) then acc0
    else statusEffect r acc0 in
  if DeathDeps_eq_dec (deathDeps r) (Some d2) then acc1
  else deathEffect now r acc1.

(** Nothing left to run: both dependency arrays are those of the last
    commit. *)
Definition quiescent (h : State) : bool :=
  (if StatusDeps_eq_dec (statusDeps h) (Some (cur_status h))
   then true else false)
  && (if DeathDeps_eq_dec (deathDeps h) (Some (cur_deathDeps h))
      then true else false).

(** React renders again as long as an effect changed the state. *)
Fixpoint settle_fuel (fuel : nat) (now : Z) (h : State) : State :=
  match fuel with
  | O => h
  | S k => if quiescent h then h else settle_fuel k now (commit now h)
  end.

Definition settle (now : Z) (h : State) : State := settle_fuel 3 now h.

Definition initial : State :=
  mkState UseWebSocket.initial false 0 None [] None None.

Definition mount (now : Z) : State :=
  settle now (set_ws (UseWebSocket.mount UseWebSocket.initial) initial).

(** The callback of a timeout, run at its due time. *)
Definition fire (due : Z) (h : State) : State :=
  settle due (setShowGame false h).

(** Let the clock reach [t]: the timeouts due by then run, oldest
    first. *)
Definition advance (t : Z) (h : State) : State :=
  let due := filter (fun d => d <=? t) (timeouts h) in
  let later := filter (fun d => t <? d) (timeouts h) in
  fold_left (fun acc d => fire d acc) due (set_timeouts later h).

(** A socket event handled at time [now]. *)
Definition receive (now : Z) (e : UseWebSocket.Event) (h : State) : State :=
  settle now (set_ws (UseWebSocket.on e (ws h)) h).

Definition deliver (te : Z * UseWebSocket.Event) (h : State) : State :=
  receive (fst te) (snd te) (advance (fst te) h).

Definition run (trace : list (Z * UseWebSocket.Event)) (h : State) : State :=
  fold_left (fun acc te => deliver te acc) trace h.

(** A [keydown] event at time [now]: the listener is registered only
    while [showGame] holds. *)
Definition keydown (now : Z) (key : string) (h : State) : outcome State :=
  if showGame h then
    r <- Keyboard.handleKeyDown UseWebSocket.sendMove
           (lastKeyTime h) key now (ws h) ;;
    Ok (settle now (setLastKeyTime (snd r) (set_ws (fst r) h)))
  else Ok h.

(** States of the page from its mount on. *)
Inductive reachable : State -> Prop :=
| reach_mount now : reachable (mount now)
| reach_deliver te h : reachable h -> reachable (deliver te h)
| reach_advance t h : reachable h -> reachable (advance t h)
| reach_keydown now key h h' :
    reachable h -> keydown now key (advance now h) = Ok h' -> reachable h'.

End Home.

(** ** app/game/page.tsx *)

Module Game.

Record State := mkState {
  ws : UseWebSocket.State;
  lastKeyTime : Z;
  showGame : bool
}.

(** The effect that follows [gameState.status]. *)
Definition statusEffect (h : State) : State :=
  match UseWebSocket.gameState (ws h) with
  | Some (_, gs) =>
      match status gs with
      | playing => mkState (ws h) (lastKeyTime h) true
      | lobby => mkState (ws h) (lastKeyTime h) false
      | finished => h
      end
  | None => mkState (ws h) (lastKeyTime h) false
  end.

Definition receive (e : UseWebSocket.Event) (h : State) : State :=
  statusEffect (mkState (UseWebSocket.on e (ws h)) (lastKeyTime h)
                        (showGame h)).

Definition keydown (now : Z) (key : string) (h : State) : outcome State :=
  if showGame h then
    r <- Keyboard.handleKeyDown UseWebSocket.sendMove
           (lastKeyTime h) key now (ws h) ;;
    Ok (mkState (fst r) (snd r) (showGame h))
  else Ok h.

End Game.

(** ** app/components/GameCanvas.tsx *)

Module GameCanvas.

Definition CELL_SIZE : Z := 12.

Module COLORS.
Definition background := "#1a1a1a".
Definition grid := "#444".
Definition playerSnake := "#4CAF50".
Definition otherSnake := "#2196F3".
Definition food := "#FF9800".
Definition dead := "#666".
Definition text := "#FFF".
End COLORS.

(** The 2D context: its style properties, its current path, and the
    pixel surface as the sequence of drawing operations applied to it,
    each with the styles in force when it was issued. *)
Inductive PathCmd :=
| MoveTo (x y : Z)
| LineTo (x y : Z).

Inductive Draw :=
| FillRect (style : string) (x y w h : Z)
| StrokeRect (style : string) (width : Q) (x y w h : Z)
| Stroke (style : string) (width : Q) (segments : list PathCmd)
| FillText (style fnt align baseline txt : string) (x y : Z).

Record Context := mkContext {
  fillStyle : string;
  strokeStyle : string;
  lineWidth : Q;
  font : string;
  textAlign : string;
  textBaseline : string;
  path : list PathCmd;
  surface : list Draw
}.

Definition set_fillStyle (v : string) (c : Context) : Context :=
  mkContext v (strokeStyle c) (lineWidth c) (font c) (textAlign c)
            (textBaseline c) (path c) (surface c).
Definition set_strokeStyle (v : string) (c : Context) : Context :=
  mkContext (fillStyle c) v (lineWidth c) (font c) (textAlign c)
            (textBaseline c) (path c) (surface c).
Definition set_lineWidth (v : Q) (c : Context) : Context :=
  mkContext (fillStyle c) (strokeStyle c) v (font c) (textAlign c)
            (textBaseline c) (path c) (surface c).
Definition set_font (v : string) (c : Context) : Context :=
  mkContext (fillStyle c) (strokeStyle c) (lineWidth c) v (textAlign c)
            (textBaseline c) (path c) (surface c).
Definition set_textAlign (v : string) (c : Context) : Context :=
  mkContext (fillStyle c) (strokeStyle c) (lineWidth c) (font c) v
            (textBaseline c) (path c) (surface c).
Definition set_textBaseline (v : string) (c : Context) : Context :=
  mkContext (fillStyle c) (strokeStyle c) (lineWidth c) (font c)
            (textAlign c) v (path c) (surface c).
Definition set_path (p : list PathCmd) (c : Context) : Context :=
  mkContext (fillStyle c) (strokeStyle c) (lineWidth c) (font c)
            (textAlign c) (textBaseline c) p (surface c).
Definition draw (d : Draw) (c : Context) : Context :=
  mkContext (fillStyle c) (strokeStyle c) (lineWidth c) (font c)
            (textAlign c) (textBaseline c) (path c) (surface c ++ [d]).

Definition fillRect (x y w h : Z) (c : Context) : Context :=
  draw (FillRect (fillStyle c) x y w h) c.
Definition strokeRect (x y w h : Z) (c : Context) : Context :=
  draw (StrokeRect (strokeStyle c) (lineWidth c) x y w h) c.
Definition beginPath (c : Context) : Context := set_path [] c.
Definition moveTo (x y : Z) (c : Context) : Context :=
  set_path (path c ++ [MoveTo x y]) c.
Definition lineTo (x y : Z) (c : Context) : Context :=
  set_path (path c ++ [LineTo x y]) c.
Definition stroke (c : Context) : Context :=
  draw (Stroke (strokeStyle c) (lineWidth c) (path c)) c.
Definition fillText (txt : string) (x y : Z) (c : Context) : Context :=
  draw (FillText (fillStyle c) (font c) (textAlign c) (textBaseline c)
                 txt x y) c.

(** Statements in sequence. *)
Definition then_ (f g : Context -> Context) : Context -> Context :=
  fun c => g (f c).
Notation "f >> g" := (then_ f g) (at level 62, left associativity).

Definition skip : Context -> Context := fun c => c.

(** [for (let i = 0; i <= n; i++) body(i)] *)
Fixpoint for_from (fuel : nat) (i n : Z) (body : Z -> Context -> Context)
  (c : Context) : Context :=
  match fuel with
  | O => c
  | S k => if i <=? n then for_from k (i + 1) n body (body i c) else c
  end.

Definition for_upto (n : Z) (body : Z -> Context -> Context)
  : Context -> Context :=
  for_from (Z.to_nat (n + 1)) 0 n body.

(** [list.forEach((x, index) => body)] *)
Fixpoint forEach_from {A} (index : Z) (l : list A)
  (body : A -> Z -> Context -> Context) (c : Context) : Context :=
  match l with
  | [] => c
  | x :: rest => forEach_from (index + 1) rest body (body x index c)
  end.

Definition forEach {A} (l : list A) (body : A -> Z -> Context -> Context)
  : Context -> Context :=
  forEach_from 0 l body.

Definition string_of_Z (z : Z) : string :=
  NilZero.string_of_int (Z.to_int z).

(** [n || fallback] on a number. *)
Definition or_default (n fallback : Z) : Z :=
  if n =? 0 then fallback else n.

Definition drawSnake (snake : Snake) (isPlayer : bool)
  : Context -> Context :=
  let color := if isPlayer then COLORS.playerSnake else COLORS.otherSnake in
  let deadColor := COLORS.dead in
  let currentColor := if alive snake then color else deadColor in
  forEach (body snake) (fun segment index =>
    let x := px segment * CELL_SIZE in
    let y := py segment * CELL_SIZE in
    set_fillStyle currentColor >>
    fillRect (x + 1) (y + 1) (CELL_SIZE - 2) (CELL_SIZE - 2) >>
    (if (index =? 0) && alive snake then
       set_strokeStyle "rgba(0,0,0,0.3)" >>
       set_lineWidth 2 >>
       strokeRect (x + 1) (y + 1) (CELL_SIZE - 2) (CELL_SIZE - 2)
     else skip)).

Definition fruitEmojis (t : FruitType) : string :=
  match t with
  | apple => "🍎"
  | mango => "🥭"
  end.

Definition drawFood (fruit : Fruit) : Context -> Context :=
  let x := fx fruit * CELL_SIZE + CELL_SIZE / 2 in
  let y := fy fruit * CELL_SIZE + CELL_SIZE / 2 in
  set_font ("bold " ++ string_of_Z (CELL_SIZE - 4) ++ "px Arial")%string >>
  set_textAlign "center" >>
  set_textBaseline "middle" >>
  fillText (fruitEmojis (fruit_type fruit)) x y.

(** The line of the score board for one snake. *)
Definition hud_text (snake : Snake) (isPlayer : bool) : string :=
  let prefix := if isPlayer then "👤 Você" else "🤖 Jogador" in
  let statusText := if alive snake then "✓ Vivo" else "✗ Morto" in
  (prefix ++ " - Score: " ++ string_of_Z (score snake) ++ " - "
          ++ statusText)%string.

(** [drawUI]: the mutable [yOffset] travels with the context. *)
Fixpoint drawUI_lines (snakes : list Snake) (playerId : option string)
  (yOffset : Z) (c : Context) : Context :=
  match snakes with
  | [] => c
  | snake :: rest =>
      let isPlayer := is_id playerId snake in
      let c1 := set_fillStyle (if isPlayer then COLORS.playerSnake
                               else COLORS.otherSnake) c in
      let c2 := fillText (hud_text snake isPlayer) 10 yOffset c1 in
      drawUI_lines rest playerId (yOffset + 25) c2
  end.

Definition drawUI (snakes : list Snake) (playerId : option string)
  : Context -> Context :=
  set_fillStyle COLORS.text >>
  set_font "bold 14px Arial" >>
  set_textAlign "left" >>
  drawUI_lines snakes playerId 20.

(** The body of the render effect once the guards have passed. *)
Definition paint (gameState : GameState) (playerId : option string)
  : Context -> Context :=
  let GAME_WIDTH := or_default (gameWidth gameState) 100 in
  let GAME_HEIGHT := or_default (gameHeight gameState) 60 in
  let CANVAS_WIDTH := GAME_WIDTH * CELL_SIZE in
  let CANVAS_HEIGHT := GAME_HEIGHT * CELL_SIZE in
  (* 1. background *)
  set_fillStyle COLORS.background >>
  fillRect 0 0 CANVAS_WIDTH CANVAS_HEIGHT >>
  (* 2. grid *)
  set_strokeStyle COLORS.grid >>
  set_lineWidth 0.5 >>
  for_upto GAME_WIDTH (fun i =>
    beginPath >>
    moveTo (i * CELL_SIZE) 0 >>
    lineTo (i * CELL_SIZE) CANVAS_HEIGHT >>
    stroke) >>
  for_upto GAME_HEIGHT (fun i =>
    beginPath >>
    moveTo 0 (i * CELL_SIZE) >>
    lineTo CANVAS_WIDTH (i * CELL_SIZE) >>
    stroke) >>
  (* 3. food *)
  forEach (food gameState) (fun food _ => drawFood food) >>
  (* 4. snakes *)
  forEach (snakes gameState) (fun snake _ =>
    let isPlayerSnake := is_id playerId snake in
    drawSnake snake isPlayerSnake) >>
  (* 5. score board *)
  drawUI (snakes gameState) playerId.

(** The canvas element: [getContext('2d')] gives its context or
    [null]. *)
Record Canvas := mkCanvas { getContext : option Context }.

(** The render effect: [canvasRef.current] may be [null], and so may
    [gameState]. *)
Definition render (canvasRef : option Canvas) (gameState : option GameState)
  (playerId : option string) : outcome (option Canvas) :=
  match canvasRef, gameState with
  | Some canvas, Some gs =>
      match getContext canvas with
      | None => Ok canvasRef
      | Some ctx => Ok (Some (mkCanvas (Some (paint gs playerId ctx))))
      end
  | _, _ => Ok canvasRef
  end.

(** What a canvas shows. *)
Definition pixels (canvasRef : option Canvas) : list Draw :=
  match canvasRef with
  | Some (mkCanvas (Some ctx)) => surface ctx
  | _ => []
  end.

End GameCanvas.

(** ** What the specification asks of the canvas and of the page

    These definitions follow the wording of the specification; the
    properties below compare them with the code. *)

Module Spec.

(** Colour policy: aliveness first, then identity. *)
Definition color_policy (localId : option string) (s : Snake) : string :=
  if negb (alive s) then GameCanvas.COLORS.dead
  else if is_id localId s then GameCanvas.COLORS.playerSnake
  else GameCanvas.COLORS.otherSnake.

(** The square of a grid cell, one pixel inside its borders. *)
Definition cell (p : Point) : Z * Z * Z * Z :=
  (px p * 12 + 1, py p * 12 + 1, 10, 10).

(** A segment: its filled square, and for an outlined one the outline on
    top of it. *)
Definition segment_draws (color : string) (outlined : bool) (p : Point)
  : list GameCanvas.Draw :=
  GameCanvas.FillRect color (px p * 12 + 1) (py p * 12 + 1) 10 10 ::
  (if outlined
   then [GameCanvas.StrokeRect "rgba(0,0,0,0.3)" 2
           (px p * 12 + 1) (py p * 12 + 1) 10 10]
   else []).

(** A snake: its segments from the head on; only the head of a living
    snake is outlined. *)
Definition snake_draws (localId : option string) (s : Snake)
  : list GameCanvas.Draw :=
  match body s with
  | [] => []
  | head :: rest =>
      segment_draws (color_policy localId s) (alive s) head
      ++ flat_map (segment_draws (color_policy localId s) false) rest
  end.

(** The filled squares of a sequence of operations, with their colour,
    and its outlined squares. *)
Definition fills (l : list GameCanvas.Draw) : list (string * (Z * Z * Z * Z)) :=
  flat_map (fun d => match d with
                     | GameCanvas.FillRect c x y w h => [(c, (x, y, w, h))]
                     | _ => []
                     end) l.

Definition outlines (l : list GameCanvas.Draw) : list (Z * Z * Z * Z) :=
  flat_map (fun d => match d with
                     | GameCanvas.StrokeRect _ _ x y w h => [(x, y, w, h)]
                     | _ => []
                     end) l.

(** The integers [0, 1, ..., n]. *)
Definition upto (n : Z) : list Z :=
  map Z.of_nat (seq 0 (Z.to_nat (n + 1))).

Definition columns (gs : GameState) : Z := GameCanvas.or_default (gameWidth gs) 100.
Definition rows (gs : GameState) : Z := GameCanvas.or_default (gameHeight gs) 60.

(** The five layers of a frame, back to front. *)
Definition layer_background (gs : GameState) : list GameCanvas.Draw :=
  [GameCanvas.FillRect "#1a1a1a" 0 0 (columns gs * 12) (rows gs * 12)].

Definition layer_grid (gs : GameState) : list GameCanvas.Draw :=
  map (fun i => GameCanvas.Stroke "#444" 0.5
                  [GameCanvas.MoveTo (i * 12) 0;
                   GameCanvas.LineTo (i * 12) (rows gs * 12)])
      (upto (columns gs))
  ++ map (fun i => GameCanvas.Stroke "#444" 0.5
                     [GameCanvas.MoveTo 0 (i * 12);
                      GameCanvas.LineTo (columns gs * 12) (i * 12)])
         (upto (rows gs)).

Definition layer_items (gs : GameState) : list GameCanvas.Draw :=
  map (fun f => GameCanvas.FillText "#1a1a1a" "bold 8px Arial" "center"
                  "middle" (GameCanvas.fruitEmojis (fruit_type f))
                  (fx f * 12 + 6) (fy f * 12 + 6))
      (food gs).

Definition layer_snakes (gs : GameState) (localId : option string)
  : list GameCanvas.Draw :=
  flat_map (snake_draws localId) (snakes gs).

(** One line per player, in the order of the snapshot, 25 pixels apart.
    The baseline is the one the items left, or the one of the incoming
    context when there is no item. *)
Fixpoint hud_lines (l : list Snake) (localId : option string)
  (baseline : string) (y : Z) : list GameCanvas.Draw :=
  match l with
  | [] => []
  | s :: rest =>
      GameCanvas.FillText
        (if is_id localId s then "#4CAF50" else "#2196F3")
        "bold 14px Arial" "left" baseline
        (GameCanvas.hud_text s (is_id localId s)) 10 y
      :: hud_lines rest localId baseline (y + 25)
  end.

Definition layer_hud (gs : GameState) (localId : option string)
  (baseline0 : string) : list GameCanvas.Draw :=
  hud_lines (snakes gs) localId
            (match food gs with [] => baseline0 | _ => "middle" end) 20.

Definition frame (gs : GameState) (localId : option string)
  (baseline0 : string) : list GameCanvas.Draw :=
  layer_background gs ++ layer_grid gs ++ layer_items gs
  ++ layer_snakes gs localId ++ layer_hud gs localId baseline0.

(** The text of a drawing operation, if it is one of text. *)
Definition text_of (d : GameCanvas.Draw) : option string :=
  match d with
  | GameCanvas.FillText _ _ _ _ txt _ _ => Some txt
  | _ => None
  end.

(** The effect of the local player in a snapshot: the first of its
    effects when that player is present, alive and has one; [null]
    otherwise. *)
Definition local_effect (localId : option string) (gs : GameState)
  : option ActiveEffect :=
  match find (is_id localId) (snakes gs) with
  | Some s => if alive s then hd_error (activeEffects s) else None
  | None => None
  end.

(** The local player is in the snapshot and is dead. *)
Definition local_dead (localId : option string) (gs : GameState) : bool :=
  match find (is_id localId) (snakes gs) with
  | Some s => negb (alive s)
  | None => false
  end.

End Spec.

(** ** Auxiliary definitions for the loops of the canvas *)

Module Loops.

(** The operations of a [forEach] whose body adds [g x index]. *)
Fixpoint indexed_flat {A} (g : A -> Z -> list GameCanvas.Draw) (index : Z)
  (l : list A) : list GameCanvas.Draw :=
  match l with
  | [] => []
  | x :: rest => g x index ++ indexed_flat g (index + 1) rest
  end.

(** [k] consecutive integers from [i] on. *)
Fixpoint iota (i : Z) (k : nat) : list Z :=
  match k with
  | O => []
  | S k' => i :: iota (i + 1) k'
  end.

(** The styles the later layers depend on. *)
Definition styled (fs ss : string) (lw : Q) (tb : string)
  (c : GameCanvas.Context) : Prop :=
  GameCanvas.fillStyle c = fs /\ GameCanvas.strokeStyle c = ss
  /\ GameCanvas.lineWidth c = lw /\ GameCanvas.textBaseline c = tb.

End Loops.

(** ** Auxiliary definitions for the effects of the page *)

Module HomeAux.
Import Home.

(** Whether each effect is to run at the next commit. *)
Definition status_changed (h : State) : bool :=
  if StatusDeps_eq_dec (statusDeps h) (Some (cur_status h))
  then false else true.

Definition death_changed (h : State) : bool :=
  if DeathDeps_eq_dec (deathDeps h) (Some (cur_deathDeps h))
  then false else true.

(** The guard of the death-detection effect lets it through. *)
Definition guard_ok (h : State) : bool :=
  match UseWebSocket.gameState (ws h) with
  | Some _ => truthy (UseWebSocket.playerId (ws h)) && showGame h
  | None => false
  end.

(** The local player's effect, and whether the local player is dead, in
    the snapshot the page holds. *)
Definition snapshot_effect (h : State) : option ActiveEffect :=
  match UseWebSocket.gameState (ws h) with
  | Some (_, gs) => Spec.local_effect (UseWebSocket.playerId (ws h)) gs
  | None => None
  end.

Definition snapshot_dead (h : State) : bool :=
  match UseWebSocket.gameState (ws h) with
  | Some (_, gs) => Spec.local_dead (UseWebSocket.playerId (ws h)) gs
  | None => false
  end.

(** Stamps in use are older than the next one to be given out. *)
Definition stamps_ok (h : State) : Prop :=
  (forall k, cur_snakes h = Some k ->
             (k < UseWebSocket.allocated (ws h))%nat)
  /\ (forall d k, deathDeps h = Some d -> dep_snakes d = Some k ->
                  (k < UseWebSocket.allocated (ws h))%nat).

(** Some timeout is due at [t]. *)
Definition due_by (t : Z) (h : State) : bool :=
  existsb (fun d => d <=? t) (timeouts h).

(** The game is showing and a revert is pending for the time [due], none
    for an earlier time. *)
Definition revert_pending (due : Z) (h : State) : Prop :=
  quiescent h = true /\ stamps_ok h /\ showGame h = true
  /\ In due (timeouts h) /\ Forall (fun d => due <= d) (timeouts h).

End HomeAux.

(** ** Sequences of events *)

Module Traces.

(** The value carried by the last event of a trace that carries one. *)
Definition last_of {E A : Type} (f : E -> option A) (evs : list E)
  : option A :=
  fold_left (fun acc e => match f e with Some a => Some a | None => acc end)
            evs None.

(** What each socket event writes in the hook. *)
Definition snapshot_of (e : UseWebSocket.Event) : option GameState :=
  match e with UseWebSocket.gameStateEv st => Some st | _ => None end.

Definition lobby_of (e : UseWebSocket.Event) : option LobbyStatus :=
  match e with UseWebSocket.lobbyUpdate st => Some st | _ => None end.

Definition connection_of (e : UseWebSocket.Event) : option bool :=
  match e with
  | UseWebSocket.connect _ => Some true
  | UseWebSocket.disconnect => Some false
  | _ => None
  end.

Definition identity_of (e : UseWebSocket.Event) : option (option string) :=
  match e with
  | UseWebSocket.connect sid => Some (or_null sid)
  | _ => None
  end.

(** [keydown] events, each with the time it is handled at, passed one
    after the other to [handleKeyDown]; [lastKeyTime] and the state of
    the send path go from one call to the next. *)
Fixpoint handleKeys {T : Type} (sendMove : Direction -> T -> outcome T)
  (evs : list (Z * string)) (lastKeyTime : Z) (st : T) : outcome (T * Z) :=
  match evs with
  | [] => Ok (st, lastKeyTime)
  | (now, key) :: rest =>
      r <- Keyboard.handleKeyDown sendMove lastKeyTime key now st ;;
      handleKeys sendMove rest (snd r) (fst r)
  end.

(** A direction of the transport contract: one step along one axis. *)
Definition unit_step (d : Direction) : Prop :=
  (dx d = 0 /\ (dy d = -1 \/ dy d = 1))
  \/ (dy d = 0 /\ (dx d = -1 \/ dx d = 1)).

Definition unit_move (m : UseWebSocket.Emitted) : Prop :=
  match m with
  | UseWebSocket.EmitMove d => unit_step d
  | UseWebSocket.EmitStartGame => False
  end.

(** app/game/page.tsx from its first render on: the hook is mounted and
    the status effect has run once. *)
Definition game_mount : Game.State :=
  Game.statusEffect
    (Game.mkState (UseWebSocket.mount UseWebSocket.initial) 0 false).

Definition game_run (evs : list UseWebSocket.Event) (g : Game.State)
  : Game.State :=
  fold_left (fun acc e => Game.receive e acc) evs g.

(** The status of a snapshot unless it is [finished], the one status
    the game page does not react to. *)
Definition shown_status (e : UseWebSocket.Event) : option Status :=
  match e with
  | UseWebSocket.gameStateEv st =>
      match status st with
      | finished => None
      | other => Some other
      end
  | _ => None
  end.

(** [gameState?.status] as the game page sees it. *)
Definition game_status (g : Game.State) : option Status :=
  match UseWebSocket.gameState (Game.ws g) with
  | Some (_, gs) => Some (status gs)
  | None => None
  end.

(** A line of the grid that stays on a canvas of the given size. *)
Definition on_canvas (width height : Z) (d : GameCanvas.Draw) : Prop :=
  match d with
  | GameCanvas.Stroke _ _ segments =>
      Forall (fun p => match p with
                       | GameCanvas.MoveTo x y
                       | GameCanvas.LineTo x y =>
                           0 <= x <= width /\ 0 <= y <= height
                       end) segments
  | _ => True
  end.

Definition is_stroke (d : GameCanvas.Draw) : bool :=
  match d with GameCanvas.Stroke _ _ _ => true | _ => false end.

End Traces.

(** ** What app/page.tsx returns *)

Module Screens.

(** The three returns of [Home]: the connecting screen, the lobby, or
    the game view with the effect indicator and either the canvas (with
    the props it receives) or the placeholder text. *)
Inductive Screen :=
| Loading
| LobbyScreen
| GameScreen (effect : option ActiveEffect)
             (canvas : option (GameState * option string)).

Definition render (h : Home.State) : Screen :=
  if negb (UseWebSocket.isConnected (Home.ws h)) then Loading
  else if negb (Home.showGame h) then LobbyScreen
  else
    GameScreen (Home.activeEffect h)
      (match UseWebSocket.gameState (Home.ws h) with
       | Some (_, gameState) =>
           match status gameState with
           | playing =>
               Some (gameState, UseWebSocket.playerId (Home.ws h))
           | _ => None
           end
       | None => None
       end).

End Screens.

(** * Properties *)

(** ** Tactics *)

(** Split on the scrutinee of the first [match] or [if] of the goal. *)
Ltac case_scrutinee :=
  match goal with
  | |- context [match ?x with _ => _ end] =>
      match type of x with
      | sumbool _ _ => destruct x
      | _ => destruct x eqn:?
      end
  end.

(** ** The connection hook *)

Section HookFacts.
Import UseWebSocket.

Lemma on_keeps_socket (e : Event) (s : State) :
  socketRef (on e s) = socketRef s.
Proof. destruct e; reflexivity. Qed.

Lemma run_keeps_socket (evs : list Event) :
  forall s, socketRef (run evs s) = socketRef s.
Proof.
  induction evs as [|e evs IH]; intro s; simpl.
  - reflexivity.
  - unfold run in IH. rewrite IH. apply on_keeps_socket.
Qed.

Lemma run_keeps_sent (evs : list Event) (s : State) :
  sent (run evs s) = sent s.
Proof. unfold sent. now rewrite run_keeps_socket. Qed.

Lemma sendMove_connected (d : Direction) (s : State) (sock : Socket) :
  socketRef s = Some sock -> isConnected s = true ->
  exists s', sendMove d s = Ok s' /\ sent s' = sent s ++ [EmitMove d].
Proof.
  intros Hs Hc. unfold sendMove. rewrite Hs, Hc. simpl.
  eexists. split; [reflexivity|]. unfold sent. simpl. now rewrite Hs.
Qed.

Lemma sendMove_total (d : Direction) (s : State) :
  exists s', sendMove d s = Ok s'.
Proof.
  unfold sendMove. destruct (socketRef s); simpl; [|eauto].
  destruct (isConnected s); simpl; eauto.
Qed.
End HookFacts.

(** C2 (as the code has it).  The local identifier is written by the
    [connect] listener and by no other: on [connect] it becomes
    [socket.id || null] and the session is connected; every other event
    leaves it as it was.  In particular [disconnect] flips the connection
    flag and keeps the identifier. *)
Theorem playerId_written_by_connect_only :
  forall (e : UseWebSocket.Event) (s : UseWebSocket.State),
    UseWebSocket.playerId (UseWebSocket.on e s) =
      match e with
      | UseWebSocket.connect sid => or_null sid
      | _ => UseWebSocket.playerId s
      end
    /\ UseWebSocket.isConnected (UseWebSocket.on e s) =
      match e with
      | UseWebSocket.connect _ => true
      | UseWebSocket.disconnect => false
      | _ => UseWebSocket.isConnected s
      end.
Proof. intros e s. destruct e; split; reflexivity. Qed.

(** C2, the claim as stated fails: after a session is connected and then
    disconnected the identifier is still the one of that session, not
    [null]. *)
Lemma playerId_not_cleared_on_disconnect :
  let s := UseWebSocket.run
             [UseWebSocket.connect (Some "abc"); UseWebSocket.disconnect]
             (UseWebSocket.mount UseWebSocket.initial) in
  UseWebSocket.isConnected s = false
  /\ UseWebSocket.playerId s = Some "abc"
  /\ UseWebSocket.playerId s <> None.
Proof. cbv. repeat split; discriminate. Qed.

(** C5.  While the session is not connected (the flag is false, or there
    is no socket yet) [sendMove] returns normally, leaves the whole state
    of the hook as it was, so [emit] has not been called, and nothing is
    kept for later: whatever the socket delivers afterwards, a reconnect
    included, the calls of [emit] stay those made before. *)
Theorem sendMove_disconnected_noop :
  forall (direction : Direction) (s : UseWebSocket.State),
    UseWebSocket.isConnected s = false \/ UseWebSocket.socketRef s = None ->
    UseWebSocket.sendMove direction s = Ok s
    /\ forall later : list UseWebSocket.Event,
         UseWebSocket.sent (UseWebSocket.run later s) = UseWebSocket.sent s.
Proof.
  intros d s H. split.
  - unfold UseWebSocket.sendMove. destruct H as [H|H]; rewrite H.
    + now rewrite andb_false_r.
    + reflexivity.
  - intro later. apply run_keeps_sent.
Qed.

Lemma sendMove_disconnected_noop_witness :
  let s := UseWebSocket.run
             [UseWebSocket.connect (Some "abc"); UseWebSocket.disconnect]
             (UseWebSocket.mount UseWebSocket.initial) in
  UseWebSocket.sendMove (mkDirection 1 0) s = Ok s
  /\ UseWebSocket.sent
       (UseWebSocket.run [UseWebSocket.connect (Some "abd")] s) = [].
Proof.
  intro s.
  destruct (@sendMove_disconnected_noop (mkDirection 1 0) s
              (or_introl eq_refl)) as [H1 H2].
  split; [exact H1|].
  exact (H2 [UseWebSocket.connect (Some "abd")]).
Defined.

(** ** The keyboard handler *)

Section HomeFrame.
Import Home.

(** Effects write neither the hook's state nor [lastKeyTime]. *)
Lemma commit_ws (now : Z) (h : State) : ws (commit now h) = ws h.
Proof.
  unfold commit, statusEffect, deathEffect.
  repeat case_scrutinee; reflexivity.
Qed.

Lemma commit_lastKeyTime (now : Z) (h : State) :
  lastKeyTime (commit now h) = lastKeyTime h.
Proof.
  unfold commit, statusEffect, deathEffect.
  repeat case_scrutinee; reflexivity.
Qed.

Lemma settle_fuel_ws (fuel : nat) (now : Z) :
  forall h, ws (settle_fuel fuel now h) = ws h.
Proof.
  induction fuel as [|k IH]; intro h; simpl; [reflexivity|].
  destruct (quiescent h); [reflexivity|].
  rewrite IH. apply commit_ws.
Qed.

Lemma settle_fuel_lastKeyTime (fuel : nat) (now : Z) :
  forall h, lastKeyTime (settle_fuel fuel now h) = lastKeyTime h.
Proof.
  induction fuel as [|k IH]; intro h; simpl; [reflexivity|].
  destruct (quiescent h); [reflexivity|].
  rewrite IH. apply commit_lastKeyTime.
Qed.

Lemma settle_ws (now : Z) (h : State) : ws (settle now h) = ws h.
Proof. apply settle_fuel_ws. Qed.

Lemma settle_lastKeyTime (now : Z) (h : State) :
  lastKeyTime (settle now h) = lastKeyTime h.
Proof. apply settle_fuel_lastKeyTime. Qed.

End HomeFrame.

(** C4.  For a key that maps to a direction, [handleKeyDown] at time
    [now] does one of two things.  If [now - lastKeyTime < 50] it returns
    at once: the send path is not taken and [lastKeyTime] stays.
    Otherwise it takes the send path exactly once, with the mapped
    direction, and [lastKeyTime] becomes [now].  This holds for any send
    path (first part), hence for one that counts its calls (second
    part), and for both pages while their listener is registered, where
    the send path is the hook's [sendMove] (third and fourth part); on a
    connected session that call emits exactly one [move] with the
    direction (fifth part). *)
Theorem handleKeyDown_throttle :
  forall (key : string) (now : Z) (direction : Direction),
    Keyboard.key_direction key = Some direction ->
    (forall (T : Type) (sendMove : Direction -> T -> outcome T)
            (lastKeyTime : Z) (st : T),
        Keyboard.handleKeyDown sendMove lastKeyTime key now st =
          if now - lastKeyTime <? 50 then Ok (st, lastKeyTime)
          else st' <- sendMove direction st ;; Ok (st', now))
    /\ (forall (lastKeyTime : Z) (calls : list Direction),
        Keyboard.handleKeyDown Keyboard.counting lastKeyTime key now calls =
          Ok (if now - lastKeyTime <? 50 then (calls, lastKeyTime)
              else (calls ++ [direction], now)))
    /\ (forall h : Home.State,
        exists h',
          Home.keydown now key (Home.setShowGame true h) = Ok h'
          /\ Home.lastKeyTime h' =
               (if now - Home.lastKeyTime h <? 50 then Home.lastKeyTime h
                else now)
          /\ Ok (Home.ws h') =
               (if now - Home.lastKeyTime h <? 50 then Ok (Home.ws h)
                else UseWebSocket.sendMove direction (Home.ws h)))
    /\ (forall (w : UseWebSocket.State) (lastKeyTime : Z),
        exists g',
          Game.keydown now key (Game.mkState w lastKeyTime true) = Ok g'
          /\ Game.lastKeyTime g' =
               (if now - lastKeyTime <? 50 then lastKeyTime else now)
          /\ Ok (Game.ws g') =
               (if now - lastKeyTime <? 50 then Ok w
                else UseWebSocket.sendMove direction w))
    /\ (forall (w : UseWebSocket.State) (sock : UseWebSocket.Socket)
               (lastKeyTime : Z),
        UseWebSocket.socketRef w = Some sock ->
        UseWebSocket.isConnected w = true ->
        exists w',
          Keyboard.handleKeyDown UseWebSocket.sendMove lastKeyTime key now w
            = Ok (w', if now - lastKeyTime <? 50 then lastKeyTime else now)
          /\ UseWebSocket.sent w' =
               UseWebSocket.sent w ++
               (if now - lastKeyTime <? 50 then []
                else [UseWebSocket.EmitMove direction])).
Proof.
  intros key now direction Hkey.
  assert (Hgen : forall (T : Type) (sendMove : Direction -> T -> outcome T)
                        (lastKeyTime : Z) (st : T),
             Keyboard.handleKeyDown sendMove lastKeyTime key now st =
               if now - lastKeyTime <? 50 then Ok (st, lastKeyTime)
               else st' <- sendMove direction st ;; Ok (st', now)).
  { intros T sendMove last st. unfold Keyboard.handleKeyDown.
    rewrite Hkey. reflexivity. }
  split; [exact Hgen|]. split; [|split; [|split]].
  - intros last calls. rewrite Hgen. unfold Keyboard.counting.
    destruct (now - last <? 50); reflexivity.
  - intro h. unfold Home.keydown. simpl Home.showGame. cbv iota.
    rewrite Hgen. simpl Home.lastKeyTime. simpl Home.ws.
    destruct (now - Home.lastKeyTime h <? 50).
    + simpl. eexists. split; [reflexivity|].
      rewrite settle_lastKeyTime, settle_ws. split; reflexivity.
    + destruct (sendMove_total direction (Home.ws h)) as [w' Hw].
      rewrite Hw. simpl. eexists. split; [reflexivity|].
      rewrite settle_lastKeyTime, settle_ws. split; reflexivity.
  - intros w last. unfold Game.keydown. simpl Game.showGame. cbv iota.
    rewrite Hgen. simpl Game.lastKeyTime. simpl Game.ws.
    destruct (now - last <? 50).
    + simpl. eexists. repeat split; reflexivity.
    + destruct (sendMove_total direction w) as [w' Hw].
      rewrite Hw. simpl. eexists. repeat split; reflexivity.
  - intros w sock last Hsock Hconn. rewrite Hgen.
    destruct (now - last <? 50).
    + exists w. split; [reflexivity|]. now rewrite app_nil_r.
    + destruct (sendMove_connected direction w Hsock Hconn)
        as (w' & Hw & Hsent).
      rewrite Hw. exists w'. split; [reflexivity|exact Hsent].
Qed.

Lemma handleKeyDown_throttle_witness :
  let w := UseWebSocket.run [UseWebSocket.connect (Some "abc")]
             (UseWebSocket.mount UseWebSocket.initial) in
  Keyboard.key_direction "ArrowUp" = Some (mkDirection 0 (-1))
  /\ Keyboard.handleKeyDown Keyboard.counting 1000 "ArrowUp" 1030 [] =
       Ok ([], 1000)
  /\ Keyboard.handleKeyDown Keyboard.counting 1000 "ArrowUp" 1060 [] =
       Ok ([mkDirection 0 (-1)], 1060)
  /\ exists w',
       Keyboard.handleKeyDown UseWebSocket.sendMove 1000 "ArrowUp" 1060 w
         = Ok (w', 1060)
       /\ UseWebSocket.sent w' = [UseWebSocket.EmitMove (mkDirection 0 (-1))].
Proof.
  intro w.
  split; [reflexivity|]. split; [|split].
  - exact (proj1 (proj2 (@handleKeyDown_throttle "ArrowUp" 1030 _ eq_refl))
             1000 []).
  - exact (proj1 (proj2 (@handleKeyDown_throttle "ArrowUp" 1060 _ eq_refl))
             1000 []).
  - exact (proj2 (proj2 (proj2 (proj2
             (@handleKeyDown_throttle "ArrowUp" 1060 _ eq_refl))))
             w (UseWebSocket.mkSocket []) 1000 eq_refl eq_refl).
Defined.

(** ** The effect countdown *)

Section CountdownFacts.
Import EffectIndicator.

(** [Math.ceil(r / 1000)] is the least number of whole seconds that
    covers [r] milliseconds. *)
Lemma ceil_seconds (r : Z) :
  let n := Qceiling (inject_Z r / 1000) in
  (n - 1) * 1000 < r <= n * 1000.
Proof.
  intro n.
  pose proof (Qle_ceiling (inject_Z r / 1000)) as Hle.
  pose proof (Qceiling_lt (inject_Z r / 1000)) as Hlt.
  fold n in Hle, Hlt.
  unfold Qle in Hle. unfold Qlt in Hlt. simpl in Hle, Hlt.
  lia.
Qed.

Lemma ceil_seconds_pos (r : Z) :
  0 < Qceiling (inject_Z r / 1000) <-> 0 < r.
Proof. pose proof (ceil_seconds r) as H. simpl in H. lia. Qed.

(** In every state of the component the interval's callback has captured
    the current prop, and no time is left while the prop is [null]. *)
Lemma reachable_inv (s : State) :
  reachable s ->
  (forall eff due, updateTimer s = Some (eff, due) -> effect s = Some eff)
  /\ (effect s = None -> timeLeft s = 0).
Proof.
  induction 1 as [now e | now e s _ [IH1 IH2] | now s _ [IH1 IH2]].
  - destruct e; simpl; split; intros; congruence.
  - destruct e; simpl; split; intros; congruence.
  - unfold tick. destruct (updateTimer s) as [[eff due]|] eqn:Ht.
    + simpl. split.
      * intros eff' due' Hi.
        destruct (Z.max 0 (endTime eff - now) <=? 0); [discriminate|].
        injection Hi as <- _. apply (IH1 _ _ eq_refl).
      * intro Hn. rewrite (IH1 _ _ eq_refl) in Hn. discriminate.
    + split; [intros; congruence | exact IH2].
Qed.

Lemma advance_before_due (t : Z) (s : State) (eff : ActiveEffect) (due : Z) :
  updateTimer s = Some (eff, due) -> t < due -> advance t s = s.
Proof.
  intros Ht Hlt. unfold advance. rewrite Ht.
  destruct (Z.to_nat ((t - due) / 100 + 1)); simpl; [reflexivity|].
  rewrite Ht. destruct (Z.leb_spec due t); [lia|reflexivity].
Qed.

Lemma advance_at_due (s : State) (eff : ActiveEffect) (due : Z) :
  updateTimer s = Some (eff, due) -> advance due s = tick due s.
Proof.
  intro Ht. unfold advance. rewrite Ht.
  replace ((due - due) / 100 + 1) with 1 by (rewrite Z.sub_diag; reflexivity).
  simpl. rewrite Ht, Z.leb_refl. reflexivity.
Qed.

(** On the nominal range of the bar, 0 to 10 seconds, the percentage
    [(n / 10) * 100] is computed without rounding error: it is the double
    [10 n]. *)
Lemma percentage_exact_nominal (n : Z) :
  0 <= n <= 10 ->
  Binary64.mul (Binary64.div (Binary64.of_Z n) (Binary64.of_Z 10))
               (Binary64.of_Z 100)
  = Binary64.of_Z (10 * n).
Proof.
  intro H. rewrite <- (Z2Nat.id n) by lia.
  assert (Hk : (Z.to_nat n <= 10)%nat) by lia.
  revert Hk. generalize (Z.to_nat n) as k. intros k Hk.
  do 11 (destruct k as [|k]; [vm_compute; reflexivity|]).
  lia.
Qed.

(** Beyond it the two roundings show: with 11 seconds left the
    percentage is the double next above 110, which JavaScript prints as
    110.00000000000001. *)
Lemma percentage_rounding_at_11 :
  Binary64.mul (Binary64.div (Binary64.of_Z 11) (Binary64.of_Z 10))
               (Binary64.of_Z 100)
  = S754_finite false 7740561859543041 (-46)
  /\ Binary64.of_Z 110 = S754_finite false 7740561859543040 (-46).
Proof. split; vm_compute; reflexivity. Qed.

End CountdownFacts.

(** C7.  On every tick of the countdown of an effect that expires at
    [endTime], the remaining value [timeLeft] becomes the ceiling of
    [max(0, endTime - now) / 1000]: the least whole number of seconds
    covering the remaining milliseconds.  What is displayed then is that
    value and the percentage [(timeLeft / 10) * 100], computed in double
    precision from the remaining seconds and the constants 10 and 100
    alone, whatever the duration the effect was granted for; up to 10
    seconds left it is exactly the double [10 * timeLeft].  When the
    value is 0 the component displays nothing. *)
Theorem countdown_tick :
  forall (s : EffectIndicator.State) (eff : ActiveEffect) (due now : Z),
    EffectIndicator.reachable s ->
    EffectIndicator.updateTimer s = Some (eff, due) ->
    let remaining := Z.max 0 (endTime eff - now) in
    let s' := EffectIndicator.tick now s in
    EffectIndicator.timeLeft s' = Qceiling (inject_Z remaining / 1000)
    /\ (EffectIndicator.timeLeft s' - 1) * 1000 < remaining
         <= EffectIndicator.timeLeft s' * 1000
    /\ match EffectIndicator.render s' with
       | Some v =>
           EffectIndicator.seconds v = EffectIndicator.timeLeft s'
           /\ EffectIndicator.percentage v
              = Binary64.mul
                  (Binary64.div (Binary64.of_Z (EffectIndicator.seconds v))
                                (Binary64.of_Z 10))
                  (Binary64.of_Z 100)
           /\ (EffectIndicator.seconds v <= 10 ->
               EffectIndicator.percentage v
               = Binary64.of_Z (10 * EffectIndicator.seconds v))
       | None => EffectIndicator.timeLeft s' = 0
       end.
Proof.
  intros s eff due now Hr Ht remaining s'.
  destruct (reachable_inv Hr) as [Hcap _].
  specialize (Hcap _ _ Ht).
  assert (Htl : EffectIndicator.timeLeft s'
                = Qceiling (inject_Z remaining / 1000)).
  { unfold s', EffectIndicator.tick. rewrite Ht. reflexivity. }
  assert (Hef : EffectIndicator.effect s' = Some eff).
  { unfold s', EffectIndicator.tick. rewrite Ht. exact Hcap. }
  pose proof (ceil_seconds remaining) as Hceil. cbv zeta in Hceil.
  split; [exact Htl|]. split; [rewrite Htl; exact Hceil|].
  unfold EffectIndicator.render. rewrite Hef.
  destruct (Z.leb_spec (EffectIndicator.timeLeft s') 0) as [Hle|Hgt].
  - cbv iota. rewrite Htl in *.
    set (n := Qceiling (inject_Z remaining / 1000)) in *. clearbody n.
    unfold remaining in *. lia.
  - cbv iota. cbn [EffectIndicator.seconds EffectIndicator.percentage].
    split; [reflexivity|]. split; [reflexivity|].
    intro Hten. apply percentage_exact_nominal. lia.
Qed.

Lemma countdown_tick_witness :
  let s := EffectIndicator.mount 0 (Some (mkEffect speedBoost 5000)) in
  EffectIndicator.timeLeft (EffectIndicator.tick 2100 s) = 3
  /\ (3 - 1) * 1000 < Z.max 0 (5000 - 2100) <= 3 * 1000
  /\ match EffectIndicator.render (EffectIndicator.tick 2100 s) with
     | Some v => EffectIndicator.seconds v = 3
                 /\ EffectIndicator.percentage v = Binary64.of_Z 30
     | None => False
     end.
Proof.
  intro s.
  pose proof (@countdown_tick s (mkEffect speedBoost 5000) 100 2100
                (EffectIndicator.reach_mount 0 _) eq_refl) as H.
  cbv zeta in H. destruct H as [H1 [H2 H3]].
  split; [exact H1|]. split; [exact H2|].
  destruct (EffectIndicator.render (EffectIndicator.tick 2100 s)) as [v|].
  - destruct H3 as (Hs & _ & Hp). rewrite H1 in Hs.
    split; [exact Hs|]. rewrite Hs in Hp. apply Hp.
    apply Z.leb_le. reflexivity.
  - rewrite H1 in H3. discriminate H3.
Defined.

(** C3 (as the code has it).  When the effect handed to the indicator
    switches from [null] to an effect object at time [now], nothing is
    shown before the first tick of the countdown, 100 ms later; from that
    tick the indicator is shown, provided the effect has not expired by
    then.  When the effect switches to [null] the indicator is hidden at
    once, whatever the state was. *)
Theorem effect_ui_switch :
  forall (s : EffectIndicator.State) (now : Z) (e : ActiveEffect),
    EffectIndicator.reachable s ->
    EffectIndicator.effect s = None ->
    let s' := EffectIndicator.setEffect now (Some e) s in
    (forall t, t < now + 100 ->
       EffectIndicator.visible (EffectIndicator.advance t s') = false)
    /\ EffectIndicator.visible (EffectIndicator.advance (now + 100) s')
       = (now + 100 <? endTime e)
    /\ (forall (s0 : EffectIndicator.State) (now0 : Z),
          EffectIndicator.visible (EffectIndicator.setEffect now0 None s0)
          = false).
Proof.
  intros s now e Hr Hnull s'.
  destruct (reachable_inv Hr) as [_ Hzero]. specialize (Hzero Hnull).
  assert (Ht : EffectIndicator.updateTimer s' = Some (e, now + 100))
    by reflexivity.
  split; [|split].
  - intros t Hlt. rewrite (advance_before_due _ Ht Hlt).
    unfold EffectIndicator.visible, EffectIndicator.render. simpl.
    rewrite Hzero. reflexivity.
  - rewrite (advance_at_due _ Ht).
    unfold EffectIndicator.visible, EffectIndicator.render,
      EffectIndicator.tick.
    rewrite Ht. cbn [EffectIndicator.effect EffectIndicator.timeLeft
                     EffectIndicator.setEffect EffectIndicator.run_effect s'].
    pose proof (ceil_seconds_pos (Z.max 0 (endTime e - (now + 100)))) as Hp.
    set (n := Qceiling (inject_Z (Z.max 0 (endTime e - (now + 100))) / 1000))
      in *.
    clearbody n.
    destruct (Z.leb_spec n 0) as [Hle|Hgt];
      destruct (Z.ltb_spec (now + 100) (endTime e)); try reflexivity; lia.
  - intros s0 now0. reflexivity.
Qed.

Lemma effect_ui_switch_witness :
  let s' := EffectIndicator.setEffect 0 (Some (mkEffect slowDown 5000))
              (EffectIndicator.mount 0 None) in
  EffectIndicator.visible (EffectIndicator.advance 99 s') = false
  /\ EffectIndicator.visible (EffectIndicator.advance 100 s') = true.
Proof.
  intro s'.
  destruct (@effect_ui_switch (EffectIndicator.mount 0 None) 0
              (mkEffect slowDown 5000)
              (EffectIndicator.reach_mount 0 None) eq_refl) as [H1 [H2 _]].
  split; [apply H1; reflexivity | exact H2].
Defined.

(** C3, the claim as stated fails: the effect has just switched from
    [null] to an effect with five seconds to run, and the indicator
    renders nothing. *)
Lemma effect_ui_not_shown_at_once :
  let s := EffectIndicator.mount 0 None in
  let s' := EffectIndicator.setEffect 0 (Some (mkEffect speedBoost 5000)) s in
  EffectIndicator.effect s = None
  /\ EffectIndicator.effect s' = Some (mkEffect speedBoost 5000)
  /\ EffectIndicator.render s' = None
  /\ EffectIndicator.visible s' <> true.
Proof. cbv. repeat split; discriminate. Qed.

(** ** The canvas *)

Section CanvasFacts.
Import GameCanvas Loops.

(** Loops: a body that keeps an invariant of the context and adds a
    known list of operations makes the loop add their concatenation. *)
Lemma forEach_from_inv {A} (P : Context -> Prop)
  (body : A -> Z -> Context -> Context) (g : A -> Z -> list Draw) :
  (forall x i c, P c ->
     P (body x i c) /\ surface (body x i c) = surface c ++ g x i) ->
  forall l i c, P c ->
    P (forEach_from i l body c)
    /\ surface (forEach_from i l body c) = surface c ++ indexed_flat g i l.
Proof.
  intros Hbody. induction l as [|x rest IH]; intros i c Hc; simpl.
  - split; [exact Hc | now rewrite app_nil_r].
  - destruct (Hbody x i c Hc) as [HP Hs].
    destruct (IH (i + 1) _ HP) as [HP' Hs'].
    split; [exact HP'|]. rewrite Hs', Hs. now rewrite app_assoc.
Qed.

Lemma indexed_flat_const {A} (g : A -> list Draw) (l : list A) :
  forall i, indexed_flat (fun x _ => g x) i l = flat_map g l.
Proof.
  induction l as [|x rest IH]; intro i; simpl; [reflexivity|].
  now rewrite IH.
Qed.

Lemma iota_seq (k : nat) :
  forall i j, i = Z.of_nat j -> iota i k = map Z.of_nat (seq j k).
Proof.
  induction k as [|k IH]; intros i j E; simpl; [reflexivity|].
  rewrite E at 1. f_equal. apply IH. lia.
Qed.

Lemma for_from_inv (P : Context -> Prop) (n : Z)
  (body : Z -> Context -> Context) (g : Z -> list Draw) :
  (forall i c, P c ->
     P (body i c) /\ surface (body i c) = surface c ++ g i) ->
  forall fuel i c, Z.of_nat fuel = Z.max 0 (n + 1 - i) -> P c ->
    P (for_from fuel i n body c)
    /\ surface (for_from fuel i n body c)
       = surface c ++ flat_map g (iota i fuel).
Proof.
  intros Hbody. induction fuel as [|k IH]; intros i c Hf Hc; simpl.
  - split; [exact Hc | now rewrite app_nil_r].
  - destruct (Z.leb_spec i n) as [Hle|Hgt]; [|lia].
    destruct (Hbody i c Hc) as [HP Hs].
    destruct (IH (i + 1) _ ltac:(lia) HP) as [HP' Hs'].
    split; [exact HP'|]. rewrite Hs', Hs. now rewrite app_assoc.
Qed.

Lemma for_upto_inv (P : Context -> Prop) (n : Z)
  (body : Z -> Context -> Context) (g : Z -> list Draw) :
  (forall i c, P c ->
     P (body i c) /\ surface (body i c) = surface c ++ g i) ->
  forall c, P c ->
    P (for_upto n body c)
    /\ surface (for_upto n body c) = surface c ++ flat_map g (Spec.upto n).
Proof.
  intros Hbody c Hc. unfold for_upto, Spec.upto.
  rewrite <- (@iota_seq _ 0 0%nat eq_refl).
  apply for_from_inv; [exact Hbody | lia | exact Hc].
Qed.

(** The colour [drawSnake] computes is the one of the policy. *)
Lemma currentColor_policy (playerId : option string) (snake : Snake) :
  (if alive snake
   then if is_id playerId snake
        then COLORS.playerSnake else COLORS.otherSnake
   else COLORS.dead) = Spec.color_policy playerId snake.
Proof.
  unfold Spec.color_policy. destruct (alive snake); reflexivity.
Qed.

Lemma drawSnake_surface (playerId : option string) (snake : Snake)
  (tb : string) (c : Context) :
  textBaseline c = tb ->
  textBaseline (drawSnake snake (is_id playerId snake) c) = tb
  /\ surface (drawSnake snake (is_id playerId snake) c)
     = surface c ++ Spec.snake_draws playerId snake.
Proof.
  intro Htb. unfold drawSnake, forEach, Spec.snake_draws.
  rewrite currentColor_policy.
  set (color := Spec.color_policy playerId snake).
  set (step := fun (segment : Point) (index : Z) => _).
  assert (Hstep : forall p i c0, textBaseline c0 = tb ->
            textBaseline (step p i c0) = tb
            /\ surface (step p i c0)
               = surface c0
                 ++ Spec.segment_draws color ((i =? 0) && alive snake) p).
  { intros p i c0 H0. unfold step, then_, Spec.segment_draws, CELL_SIZE.
    destruct ((i =? 0) && alive snake); simpl.
    - split; [exact H0|]. now rewrite <- app_assoc.
    - split; [exact H0|]. reflexivity. }
  destruct (body snake) as [|head rest]; simpl.
  - split; [exact Htb | now rewrite app_nil_r].
  - destruct (Hstep head 0 c Htb) as [H1 H2].
    assert (Hrest : forall l i c0, 0 < i -> textBaseline c0 = tb ->
              textBaseline (forEach_from i l step c0) = tb
              /\ surface (forEach_from i l step c0)
                 = surface c0
                   ++ flat_map (Spec.segment_draws color false) l).
    { induction l as [|p l IH]; intros i c0 Hi H0; simpl.
      - split; [exact H0 | now rewrite app_nil_r].
      - destruct (Hstep p i c0 H0) as [Ha Hb].
        destruct (IH (i + 1) _ ltac:(lia) Ha) as [Hc Hd].
        split; [exact Hc|]. rewrite Hd, Hb.
        replace (i =? 0) with false by (symmetry; apply Z.eqb_neq; lia).
        simpl. now rewrite <- app_assoc. }
    destruct (Hrest rest 1 _ ltac:(lia) H1) as [H3 H4].
    split; [exact H3|]. rewrite H4, H2. simpl.
    now rewrite <- app_assoc.
Qed.

Lemma drawUI_lines_surface (playerId : option string) (l : list Snake) :
  forall y c,
    font c = "bold 14px Arial" -> textAlign c = "left" ->
    surface (drawUI_lines l playerId y c)
    = surface c ++ Spec.hud_lines l playerId (textBaseline c) y.
Proof.
  induction l as [|s rest IH]; intros y c Hf Ha; simpl.
  - now rewrite app_nil_r.
  - rewrite IH by (simpl; assumption). simpl.
    rewrite <- app_assoc. simpl. rewrite Hf, Ha.
    unfold COLORS.playerSnake, COLORS.otherSnake. reflexivity.
Qed.

End CanvasFacts.

Section FrameFacts.
Import GameCanvas Loops.

Lemma drawFood_step (fruit : Fruit) (c : Context) :
  fillStyle c = COLORS.background ->
  fillStyle (drawFood fruit c) = COLORS.background
  /\ surface (drawFood fruit c)
     = surface c
       ++ [FillText "#1a1a1a" "bold 8px Arial" "center" "middle"
             (fruitEmojis (fruit_type fruit))
             (fx fruit * 12 + 6) (fy fruit * 12 + 6)].
Proof.
  intro Hf. unfold drawFood, then_, CELL_SIZE. simpl.
  split; [exact Hf|]. rewrite Hf. reflexivity.
Qed.

Lemma food_baseline (l : list Fruit) :
  forall i c,
    textBaseline (forEach_from i l (fun food _ => drawFood food) c)
    = match l with [] => textBaseline c | _ => "middle" end.
Proof.
  induction l as [|f rest IH]; intros i c; simpl; [reflexivity|].
  rewrite IH. destruct rest; [|reflexivity].
  unfold drawFood, then_. reflexivity.
Qed.

Lemma food_surface (l : list Fruit) (c : Context) :
  fillStyle c = COLORS.background ->
  surface (forEach l (fun food _ => drawFood food) c)
  = surface c
    ++ map (fun f => FillText "#1a1a1a" "bold 8px Arial" "center" "middle"
                       (fruitEmojis (fruit_type f))
                       (fx f * 12 + 6) (fy f * 12 + 6)) l.
Proof.
  intro Hf. unfold forEach.
  destruct (@forEach_from_inv Fruit
              (fun c => fillStyle c = COLORS.background)
              (fun food _ => drawFood food)
              (fun f _ => [FillText "#1a1a1a" "bold 8px Arial" "center"
                             "middle" (fruitEmojis (fruit_type f))
                             (fx f * 12 + 6) (fy f * 12 + 6)])
              (fun x _ c0 H => drawFood_step x c0 H) l 0 c Hf) as [_ Hs].
  rewrite Hs. f_equal. rewrite indexed_flat_const. clear.
  induction l as [|f rest IH]; simpl; [reflexivity|]. now rewrite IH.
Qed.

Lemma snakes_surface (playerId : option string) (l : list Snake)
  (tb : string) (c : Context) :
  textBaseline c = tb ->
  let c' := forEach l (fun snake _ =>
                         drawSnake snake (is_id playerId snake)) c in
  textBaseline c' = tb
  /\ surface c' = surface c ++ flat_map (Spec.snake_draws playerId) l.
Proof.
  intros Htb c'. unfold c', forEach.
  rewrite <- (indexed_flat_const (Spec.snake_draws playerId) l 0).
  apply (@forEach_from_inv Snake (fun c => textBaseline c = tb)
           (fun snake _ => drawSnake snake (is_id playerId snake))
           (fun snake _ => Spec.snake_draws playerId snake)).
  - intros s _ c0 H0. apply drawSnake_surface. exact H0.
  - exact Htb.
Qed.

Lemma grid_surface (n : Z) (mk : Z -> list PathCmd)
  (body : Z -> Context -> Context) (fs tb : string) (c : Context) :
  (forall i c0, body i c0 = stroke (set_path (mk i) c0)) ->
  styled fs "#444" 0.5 tb c ->
  styled fs "#444" 0.5 tb (for_upto n body c)
  /\ surface (for_upto n body c)
     = surface c ++ map (fun i => Stroke "#444" 0.5 (mk i)) (Spec.upto n).
Proof.
  intros Hbody Hc.
  destruct (@for_upto_inv (styled fs "#444" 0.5 tb) n body
              (fun i => [Stroke "#444" 0.5 (mk i)])) with (c := c)
    as [HP Hs].
  - intros i c0 (H1 & H2 & H3 & H4). rewrite Hbody.
    unfold styled, stroke, draw, set_path. simpl.
    rewrite H2, H3. repeat split; assumption.
  - exact Hc.
  - split; [exact HP|]. rewrite Hs. f_equal.
Qed.

(** One call of the drawing code adds the five layers, in order, to
    what the surface held. *)
Lemma paint_surface (gs : GameState) (playerId : option string)
  (c : Context) :
  surface (paint gs playerId c)
  = surface c ++ Spec.frame gs playerId (textBaseline c).
Proof.
  unfold paint, drawUI, then_. cbv zeta.
  fold (Spec.columns gs). fold (Spec.rows gs).
  set (W := Spec.columns gs). set (H := Spec.rows gs). unfold CELL_SIZE.
  set (c1 := set_lineWidth 0.5 (set_strokeStyle COLORS.grid
               (fillRect 0 0 (W * 12) (H * 12)
                  (set_fillStyle COLORS.background c)))).
  set (body1 := fun (i : Z) (c0 : Context) =>
                  stroke (lineTo (i * 12) (H * 12)
                            (moveTo (i * 12) 0 (beginPath c0)))).
  set (body2 := fun (i : Z) (c0 : Context) =>
                  stroke (lineTo (W * 12) (i * 12)
                            (moveTo 0 (i * 12) (beginPath c0)))).
  set (c2 := for_upto W body1 c1).
  set (c3 := for_upto H body2 c2).
  set (c4 := forEach (food gs) (fun food0 _ => drawFood food0) c3).
  set (c5 := forEach (snakes gs)
               (fun snake _ => drawSnake snake (is_id playerId snake)) c4).
  rewrite drawUI_lines_surface by reflexivity.
  cbn [textBaseline set_textAlign set_font set_fillStyle surface].
  assert (S1 : styled "#1a1a1a" "#444" 0.5 (textBaseline c) c1)
    by (repeat split).
  assert (E1 : surface c1 = surface c ++ Spec.layer_background gs)
    by reflexivity.
  destruct (@grid_surface W
              (fun i => [MoveTo (i * 12) 0; LineTo (i * 12) (H * 12)])
              body1 _ _ c1 ltac:(intros; reflexivity) S1) as [S2 E2].
  fold c2 in S2, E2.
  destruct (@grid_surface H
              (fun i => [MoveTo 0 (i * 12); LineTo (W * 12) (i * 12)])
              body2 _ _ c2 ltac:(intros; reflexivity) S2) as [S3 E3].
  fold c3 in S3, E3.
  destruct S3 as (F3 & _ & _ & B3).
  pose proof (@food_surface (food gs) c3 F3) as E4. fold c4 in E4.
  pose proof (food_baseline (food gs) 0 c3) as B4.
  fold (forEach (food gs) (fun food _ => drawFood food) c3) in B4.
  fold c4 in B4. rewrite B3 in B4.
  destruct (@snakes_surface playerId (snakes gs) _ c4 B4) as [B5 E5].
  fold c5 in B5, E5.
  rewrite B5, E5, E4, E3, E2, E1.
  unfold Spec.frame, Spec.layer_grid, Spec.layer_items, Spec.layer_snakes,
    Spec.layer_hud.
  fold W H. rewrite <- !app_assoc. reflexivity.
Qed.

End FrameFacts.

Section PolicyFacts.
Import GameCanvas.

Lemma fills_app (a b : list Draw) :
  Spec.fills (a ++ b) = Spec.fills a ++ Spec.fills b.
Proof. unfold Spec.fills. apply flat_map_app. Qed.

Lemma outlines_app (a b : list Draw) :
  Spec.outlines (a ++ b) = Spec.outlines a ++ Spec.outlines b.
Proof. unfold Spec.outlines. apply flat_map_app. Qed.

Lemma fills_body (color : string) (l : list Point) :
  Spec.fills (flat_map (Spec.segment_draws color false) l)
  = map (fun seg => (color, Spec.cell seg)) l.
Proof.
  induction l as [|p l IH]; [reflexivity|].
  cbn [flat_map map]. rewrite fills_app, IH. reflexivity.
Qed.

Lemma outlines_body (color : string) (l : list Point) :
  Spec.outlines (flat_map (Spec.segment_draws color false) l) = [].
Proof.
  induction l as [|p l IH]; [reflexivity|].
  cbn [flat_map]. rewrite outlines_app, IH. reflexivity.
Qed.

Lemma hud_texts (localId : option string) (baseline : string)
  (l : list Snake) :
  forall y,
    map Spec.text_of (Spec.hud_lines l localId baseline y)
    = map (fun s => Some (hud_text s (is_id localId s))) l.
Proof.
  induction l as [|s rest IH]; intro y; simpl; [reflexivity|].
  now rewrite IH.
Qed.

End PolicyFacts.

(** C8.  What [drawSnake] adds to the surface for a snake is: one filled
    square per segment, in order, all of one colour; the colour is the
    dead colour when the snake is not alive, whoever owns it, the
    own-player colour when it is alive and its id is the local id, and
    the other-player colour when it is alive with another id; and the
    only outline is the one of the head (segment 0) of a living snake, a
    dead snake getting none. *)
Theorem snake_colour_policy :
  forall (playerId : option string) (snake : Snake)
         (ctx : GameCanvas.Context),
    let drawn := Spec.snake_draws playerId snake in
    GameCanvas.surface
      (GameCanvas.drawSnake snake (is_id playerId snake) ctx)
      = GameCanvas.surface ctx ++ drawn
    /\ Spec.fills drawn
       = map (fun seg => (Spec.color_policy playerId snake, Spec.cell seg))
             (body snake)
    /\ Spec.outlines drawn
       = (if alive snake then map Spec.cell (firstn 1 (body snake)) else [])
    /\ Spec.color_policy playerId snake
       = match alive snake, is_id playerId snake with
         | false, _ => "#666"
         | true, true => "#4CAF50"
         | true, false => "#2196F3"
         end.
Proof.
  intros playerId snake ctx drawn.
  split; [apply (@drawSnake_surface playerId snake _ ctx eq_refl)|].
  unfold drawn, Spec.snake_draws.
  split; [|split].
  - destruct (body snake) as [|head rest]; [reflexivity|].
    rewrite fills_app, fills_body.
    unfold Spec.segment_draws. destruct (alive snake); reflexivity.
  - destruct (body snake) as [|head rest].
    + destruct (alive snake); reflexivity.
    + rewrite outlines_app, outlines_body.
      unfold Spec.segment_draws. destruct (alive snake); reflexivity.
  - unfold Spec.color_policy.
    destruct (alive snake), (is_id playerId snake); reflexivity.
Qed.

(** C9.  With a canvas and its context at hand, one run of the render
    effect on a snapshot adds to the surface, in this order: the
    background fill, the grid lines at every multiple of the cell size,
    the items, the snakes, and the lines of text of the score board, one
    per player in the order of the snapshot. *)
Theorem render_draw_order :
  forall (ctx : GameCanvas.Context) (gs : GameState)
         (playerId : option string),
    exists canvas',
      GameCanvas.render (Some (GameCanvas.mkCanvas (Some ctx))) (Some gs)
                        playerId = Ok canvas'
      /\ GameCanvas.pixels canvas'
         = GameCanvas.surface ctx
           ++ Spec.layer_background gs
           ++ Spec.layer_grid gs
           ++ Spec.layer_items gs
           ++ Spec.layer_snakes gs playerId
           ++ Spec.layer_hud gs playerId (GameCanvas.textBaseline ctx)
      /\ map Spec.text_of
             (Spec.layer_hud gs playerId (GameCanvas.textBaseline ctx))
         = map (fun s => Some (GameCanvas.hud_text s (is_id playerId s)))
               (snakes gs).
Proof.
  intros ctx gs playerId. eexists. split; [reflexivity|]. split.
  - cbn [GameCanvas.pixels]. apply paint_surface.
  - apply hud_texts.
Qed.

(** C10.  When there is no snapshot yet, no canvas element, or no 2D
    context for the canvas, the render effect returns normally and hands
    back the canvas as it was: nothing is drawn. *)
Theorem render_guard :
  forall (canvasRef : option GameCanvas.Canvas)
         (gameState : option GameState) (playerId : option string),
    gameState = None \/ canvasRef = None
    \/ (exists canvas, canvasRef = Some canvas
                       /\ GameCanvas.getContext canvas = None) ->
    GameCanvas.render canvasRef gameState playerId = Ok canvasRef
    /\ forall canvas',
         GameCanvas.render canvasRef gameState playerId = Ok canvas' ->
         GameCanvas.pixels canvas' = GameCanvas.pixels canvasRef.
Proof.
  intros canvasRef gameState playerId H.
  assert (E : GameCanvas.render canvasRef gameState playerId = Ok canvasRef).
  { unfold GameCanvas.render.
    destruct H as [-> | [-> | (canvas & -> & Hctx)]].
    - destruct canvasRef; reflexivity.
    - reflexivity.
    - rewrite Hctx. destruct gameState; reflexivity. }
  split; [exact E|].
  intros canvas' E'. rewrite E in E'. now injection E' as <-.
Qed.

Lemma render_guard_witness :
  let ctx := GameCanvas.mkContext "#000" "#000" 1 "10px sans-serif" "start"
               "alphabetic" [] [GameCanvas.FillRect "#000" 0 0 5 5] in
  let canvas := Some (GameCanvas.mkCanvas (Some ctx)) in
  GameCanvas.render canvas None (Some "p1") = Ok canvas
  /\ GameCanvas.render (Some (GameCanvas.mkCanvas None))
       (Some (mkGameState playing [] [] 100 60)) (Some "p1")
     = Ok (Some (GameCanvas.mkCanvas None)).
Proof.
  intros ctx canvas. split.
  - exact (proj1 (@render_guard canvas None (Some "p1")
                    (or_introl eq_refl))).
  - exact (proj1 (@render_guard (Some (GameCanvas.mkCanvas None))
                    (Some (mkGameState playing [] [] 100 60)) (Some "p1")
                    (or_intror (or_intror
                       (ex_intro _ (GameCanvas.mkCanvas None)
                          (conj eq_refl eq_refl)))))).
Defined.

(** ** The page: commits *)

Section CommitFacts.
Import Home HomeAux.

Ltac crunch :=
  cbn [andb negb orb record_deps setShowGame setActiveEffect setTimeout
       ws showGame lastKeyTime activeEffect timeouts statusDeps deathDeps
       cur_deathDeps cur_status cur_snakes];
  rewrite ?app_nil_r; try reflexivity.

(** A commit, field by field. *)
Lemma commit_eq (now : Z) (h : State) :
  commit now h =
  mkState (ws h)
    (if status_changed h
     then match cur_status h with Some playing => true | _ => showGame h end
     else showGame h)
    (lastKeyTime h)
    (if death_changed h && guard_ok h then snapshot_effect h
     else activeEffect h)
    (timeouts h ++
       (if death_changed h && guard_ok h && snapshot_dead h
        then [now + 1000] else []))
    (Some (cur_status h))
    (Some (cur_deathDeps h)).
Proof.
  destruct h as [w sg lk ae ts sd dd].
  unfold commit, status_changed, death_changed, guard_ok, snapshot_effect,
    snapshot_dead, statusEffect, deathEffect, Spec.local_effect,
    Spec.local_dead, cur_deathDeps, cur_status, cur_snakes.
  crunch.
  destruct (UseWebSocket.gameState w) as [[k gs]|];
    [ destruct (status gs);
      (destruct (find (is_id (UseWebSocket.playerId w)) (snakes gs))
         as [s|];
       [ destruct (alive s), (activeEffects s) | ])
    | ];
    destruct (StatusDeps_eq_dec _ _); destruct (DeathDeps_eq_dec _ _);
    crunch;
    destruct (truthy (UseWebSocket.playerId w)), sg; crunch.
Qed.

End CommitFacts.

Section SettleFacts.
Import Home HomeAux.

Lemma quiescent_split (h : State) :
  quiescent h = negb (status_changed h) && negb (death_changed h).
Proof.
  unfold quiescent, status_changed, death_changed.
  destruct (StatusDeps_eq_dec _ _); destruct (DeathDeps_eq_dec _ _);
    reflexivity.
Qed.

Lemma status_changed_false (h : State) :
  status_changed h = false <-> statusDeps h = Some (cur_status h).
Proof.
  unfold status_changed. destruct (StatusDeps_eq_dec _ _); split;
    intros; congruence.
Qed.

Lemma death_changed_false (h : State) :
  death_changed h = false <-> deathDeps h = Some (cur_deathDeps h).
Proof.
  unfold death_changed. destruct (DeathDeps_eq_dec _ _); split;
    intros; congruence.
Qed.

Lemma commit_status_changed (now : Z) (h : State) :
  status_changed (commit now h) = false.
Proof.
  apply status_changed_false. rewrite commit_eq. reflexivity.
Qed.

(** When the status effect has nothing to do, one commit is enough. *)
Lemma commit_quiescent (now : Z) (h : State) :
  status_changed h = false -> quiescent (commit now h) = true.
Proof.
  intro Hs. rewrite quiescent_split, commit_status_changed.
  replace (death_changed (commit now h)) with false; [reflexivity|].
  symmetry. apply death_changed_false.
  rewrite commit_eq, Hs. reflexivity.
Qed.

(** Rendering stops after at most two commits. *)
Lemma settle_cases (now : Z) (h : State) :
  (quiescent h = true /\ settle now h = h)
  \/ (quiescent h = false /\ quiescent (commit now h) = true
      /\ settle now h = commit now h)
  \/ (quiescent h = false /\ quiescent (commit now h) = false
      /\ settle now h = commit now (commit now h)).
Proof.
  unfold settle. simpl.
  destruct (quiescent h) eqn:Q0; [left; auto|]. right.
  destruct (quiescent (commit now h)) eqn:Q1; [left; auto|]. right.
  rewrite (commit_quiescent now (commit now h)
             (commit_status_changed now h)). auto.
Qed.

Lemma settle_quiescent (now : Z) (h : State) :
  quiescent (settle now h) = true.
Proof.
  destruct (settle_cases now h)
    as [[Q ->] | [(_ & Q & ->) | (_ & _ & ->)]]; try assumption.
  apply commit_quiescent, commit_status_changed.
Qed.

(** What every commit preserves, rendering to quiescence preserves. *)
Lemma settle_ind (P : State -> Prop) (now : Z) (h : State) :
  P h -> (forall x, P x -> P (commit now x)) -> P (settle now h).
Proof.
  intros H0 Hstep. unfold settle. generalize 3%nat as fuel.
  intro fuel. revert h H0.
  induction fuel as [|k IH]; intros h H0; simpl; [exact H0|].
  destruct (quiescent h); [exact H0|]. apply IH, Hstep, H0.
Qed.

Lemma settle_showGame_true (now : Z) (h : State) :
  showGame h = true -> showGame (settle now h) = true.
Proof.
  intro H. apply settle_ind; [exact H|].
  intros x Hx. rewrite commit_eq. cbn [showGame]. rewrite Hx.
  destruct (status_changed x); [|reflexivity].
  destruct (cur_status x) as [[]|]; reflexivity.
Qed.

Lemma settle_timeouts_bound (lo now : Z) (h : State) :
  lo <= now + 1000 ->
  Forall (fun d => lo <= d) (timeouts h) ->
  Forall (fun d => lo <= d) (timeouts (settle now h)).
Proof.
  intros Hlo H. apply settle_ind; [exact H|].
  intros x Hx. rewrite commit_eq. cbn [timeouts].
  apply Forall_app. split; [exact Hx|].
  destruct (_ && _); constructor; [exact Hlo | constructor].
Qed.

Lemma settle_timeouts_incl (d now : Z) (h : State) :
  In d (timeouts h) -> In d (timeouts (settle now h)).
Proof.
  intro H. apply settle_ind; [exact H|].
  intros x Hx. rewrite commit_eq. cbn [timeouts].
  apply in_or_app. left. exact Hx.
Qed.

Lemma commit_stamps_ok (now : Z) (h : State) :
  stamps_ok h -> stamps_ok (commit now h).
Proof.
  intros [H1 H2]. rewrite commit_eq. unfold stamps_ok, cur_snakes.
  cbn [ws deathDeps]. split.
  - exact H1.
  - intros d k Hd Hk. injection Hd as <-. apply H1. exact Hk.
Qed.

Lemma settle_stamps_ok (now : Z) (h : State) :
  stamps_ok h -> stamps_ok (settle now h).
Proof.
  intro H. apply settle_ind; [exact H|].
  intros x Hx. apply commit_stamps_ok, Hx.
Qed.

End SettleFacts.

Section TimeoutFacts.
Import Home HomeAux.

(** A timeout that fires on a settled page hides the game and touches
    nothing else the claims look at. *)
Lemma fire_settled (d : Z) (h : State) :
  quiescent h = true ->
  ws (fire d h) = ws h
  /\ showGame (fire d h) = false
  /\ activeEffect (fire d h) = activeEffect h
  /\ timeouts (fire d h) = timeouts h
  /\ quiescent (fire d h) = true.
Proof.
  intro Q. unfold fire. set (x := setShowGame false h).
  assert (Sx : status_changed x = false).
  { rewrite quiescent_split in Q. apply andb_prop in Q as [Q _].
    apply negb_true_iff in Q. exact Q. }
  assert (Gx : guard_ok x = false).
  { unfold guard_ok, x. cbn [ws showGame setShowGame].
    destruct (UseWebSocket.gameState (ws h)); [|reflexivity].
    apply andb_false_r. }
  destruct (settle_cases d x)
    as [[Qx ->] | [(_ & Qx & ->) | (_ & Qx & _)]].
  - repeat split; try reflexivity. exact Qx.
  - rewrite commit_eq in *. rewrite Sx, Gx, !andb_false_r in *.
    cbn [ws showGame activeEffect timeouts].
    rewrite app_nil_r. repeat split; try reflexivity. exact Qx.
  - rewrite (commit_quiescent d x Sx) in Qx. discriminate.
Qed.

Lemma fold_fire_settled (l : list Z) :
  forall x, quiescent x = true ->
    let r := fold_left (fun acc d => fire d acc) l x in
    ws r = ws x
    /\ showGame r = match l with [] => showGame x | _ => false end
    /\ activeEffect r = activeEffect x
    /\ timeouts r = timeouts x
    /\ quiescent r = true.
Proof.
  induction l as [|d l IH]; intros x Q; simpl.
  - repeat split; try reflexivity. exact Q.
  - destruct (fire_settled d x Q) as (F1 & F2 & F3 & F4 & F5).
    destruct (IH (fire d x) F5) as (R1 & R2 & R3 & R4 & R5).
    rewrite R1, R2, R3, R4, F1, F2, F3, F4.
    repeat split; try reflexivity; [|exact R5].
    destruct l; reflexivity.
Qed.

Lemma filter_none (f : Z -> bool) (l : list Z) :
  existsb f l = false -> filter f l = [].
Proof.
  induction l as [|a l IH]; simpl; [reflexivity|].
  destruct (f a); simpl; [discriminate|exact IH].
Qed.

Lemma filter_some (f : Z -> bool) (l : list Z) :
  existsb f l = true -> filter f l <> [].
Proof.
  induction l as [|a l IH]; simpl; [discriminate|].
  destruct (f a); simpl; [discriminate|exact IH].
Qed.

(** Letting time pass on a settled page. *)
Lemma advance_settled (t : Z) (h : State) :
  quiescent h = true ->
  ws (advance t h) = ws h
  /\ showGame (advance t h) = (if due_by t h then false else showGame h)
  /\ activeEffect (advance t h) = activeEffect h
  /\ timeouts (advance t h) = filter (fun d => t <? d) (timeouts h)
  /\ quiescent (advance t h) = true.
Proof.
  intro Q. unfold advance.
  destruct (@fold_fire_settled (filter (fun d => d <=? t) (timeouts h))
              (set_timeouts (filter (fun d => t <? d) (timeouts h)) h) Q)
    as (R1 & R2 & R3 & R4 & R5).
  repeat split; try assumption.
  rewrite R2. unfold due_by. cbn [showGame set_timeouts].
  destruct (existsb (fun d => d <=? t) (timeouts h)) eqn:E.
  - apply filter_some in E.
    destruct (filter (fun d => d <=? t) (timeouts h)); congruence.
  - apply filter_none in E. now rewrite E.
Qed.

Lemma advance_stamps_ok (t : Z) (h : State) :
  stamps_ok h -> stamps_ok (advance t h).
Proof.
  intro H. unfold advance.
  assert (H0 : stamps_ok
                 (set_timeouts (filter (fun d => t <? d) (timeouts h)) h))
    by exact H.
  revert H0. generalize (set_timeouts (filter (fun d => t <? d) (timeouts h)) h).
  induction (filter (fun d => d <=? t) (timeouts h)) as [|d l IH];
    intros x Hx; simpl; [exact Hx|].
  apply IH. unfold fire. apply settle_stamps_ok. exact Hx.
Qed.

Lemma on_stamps_ok (e : UseWebSocket.Event) (h : State) :
  stamps_ok h -> stamps_ok (set_ws (UseWebSocket.on e (ws h)) h).
Proof.
  intros [H1 H2]. unfold stamps_ok, cur_snakes in *.
  destruct e; cbn [ws set_ws deathDeps UseWebSocket.on
                   UseWebSocket.gameState UseWebSocket.allocated];
    try (split; assumption).
  split.
  - intros k Hk. injection Hk as <-. lia.
  - intros d k Hd Hk. specialize (H2 d k Hd Hk). lia.
Qed.

Lemma receive_settled (now : Z) (e : UseWebSocket.Event) (h : State) :
  stamps_ok h ->
  quiescent (receive now e h) = true /\ stamps_ok (receive now e h).
Proof.
  intro H. unfold receive. split.
  - apply settle_quiescent.
  - apply settle_stamps_ok, on_stamps_ok, H.
Qed.

Lemma sendMove_keeps_snapshot (d : Direction) (w w' : UseWebSocket.State) :
  UseWebSocket.sendMove d w = Ok w' ->
  UseWebSocket.gameState w' = UseWebSocket.gameState w
  /\ UseWebSocket.allocated w' = UseWebSocket.allocated w.
Proof.
  unfold UseWebSocket.sendMove.
  destruct (UseWebSocket.socketRef w); simpl.
  - destruct (UseWebSocket.isConnected w); simpl; intro E;
      injection E as <-; split; reflexivity.
  - intro E. injection E as <-. split; reflexivity.
Qed.

(** Every state the page reaches is settled and has sound stamps. *)
Lemma reachable_settled (h : State) :
  reachable h -> quiescent h = true /\ stamps_ok h.
Proof.
  induction 1 as [now | te h _ [Q S] | t h _ [Q S]
                 | now key h h' _ [Q S] Hk].
  - unfold mount. split; [apply settle_quiescent|].
    apply settle_stamps_ok. split; intros; discriminate.
  - unfold deliver. apply receive_settled, advance_stamps_ok, S.
  - split; [apply (advance_settled t h Q) | apply advance_stamps_ok, S].
  - pose proof (advance_settled now h Q) as (_ & _ & _ & _ & Qa).
    pose proof (advance_stamps_ok now S) as Sa.
    set (a := advance now h) in *. unfold keydown in Hk.
    destruct (showGame a).
    + unfold Keyboard.handleKeyDown in Hk.
      assert (Hgen : forall w' t', 
                 UseWebSocket.gameState w' = UseWebSocket.gameState (ws a) ->
                 UseWebSocket.allocated w' = UseWebSocket.allocated (ws a) ->
                 stamps_ok (setLastKeyTime t' (set_ws w' a))).
      { intros w' t' E1 E2. destruct Sa as [S1 S2].
        unfold stamps_ok, cur_snakes in *.
        cbn [ws set_ws setLastKeyTime deathDeps]. rewrite E1, E2.
        split; assumption. }
      destruct (now - lastKeyTime a <? 50).
      * simpl in Hk. injection Hk as <-.
        split; [apply settle_quiescent|].
        apply settle_stamps_ok, Hgen; reflexivity.
      * destruct (Keyboard.key_direction key) as [dir|].
        -- destruct (UseWebSocket.sendMove dir (ws a)) as [w'|err] eqn:Es;
             simpl in Hk; [|discriminate].
           injection Hk as <-.
           destruct (sendMove_keeps_snapshot _ _ Es) as [E1 E2].
           split; [apply settle_quiescent|].
           apply settle_stamps_ok, Hgen; assumption.
        -- simpl in Hk. injection Hk as <-.
           split; [apply settle_quiescent|].
           apply settle_stamps_ok, Hgen; reflexivity.
    + injection Hk as <-. split; assumption.
Qed.

End TimeoutFacts.

Section SnapshotFacts.
Import Home HomeAux.

(** A snapshot received on a settled page always runs the
    death-detection effect: its array of snakes is a new object. *)
Lemma snapshot_is_new (gs : GameState) (h : State) :
  quiescent h = true -> stamps_ok h ->
  death_changed (set_ws (UseWebSocket.on (UseWebSocket.gameStateEv gs) (ws h)) h)
  = true.
Proof.
  intros Q [S1 _]. rewrite quiescent_split in Q.
  apply andb_prop in Q as [_ Q]. apply negb_true_iff in Q.
  apply death_changed_false in Q.
  unfold death_changed. destruct (DeathDeps_eq_dec _ _) as [E|]; [|reflexivity].
  exfalso. cbn [deathDeps set_ws] in E. rewrite Q in E.
  injection E as E _. unfold cur_snakes in *.
  cbn [ws set_ws UseWebSocket.on UseWebSocket.gameState] in E.
  destruct (UseWebSocket.gameState (ws h)) as [[k g]|]; [|discriminate].
  injection E as E. specialize (S1 k eq_refl). lia.
Qed.

(** What receiving a snapshot at time [t] does to a settled page. *)
Lemma receive_snapshot (t : Z) (gs : GameState) (h : State) :
  quiescent h = true -> stamps_ok h ->
  let r := receive t (UseWebSocket.gameStateEv gs) h in
  let localId := UseWebSocket.playerId (ws h) in
  UseWebSocket.playerId (ws r) = localId
  /\ (showGame h = true -> showGame r = true)
  /\ activeEffect r
     = (if showGame r && truthy localId
        then Spec.local_effect localId gs else activeEffect h)
  /\ timeouts r
     = timeouts h ++
       (if showGame r && truthy localId && Spec.local_dead localId gs
        then [t + 1000] else []).
Proof.
  intros Q S r localId.
  pose proof (@snapshot_is_new gs h Q S) as D.
  unfold r, receive.
  set (x := set_ws (UseWebSocket.on (UseWebSocket.gameStateEv gs) (ws h)) h)
    in *.
  assert (Gx : guard_ok x = truthy localId && showGame h) by reflexivity.
  assert (Ex : snapshot_effect x = Spec.local_effect localId gs)
    by reflexivity.
  assert (Dx : snapshot_dead x = Spec.local_dead localId gs) by reflexivity.
  assert (Qx : quiescent x = false).
  { rewrite quiescent_split, D. apply andb_false_r. }
  set (h1 := commit t x).
  assert (E1 : h1 = commit t x) by reflexivity.
  rewrite commit_eq, D, Gx, Ex, Dx in E1. cbn [andb] in E1.
  change (ws x) with
    (UseWebSocket.on (UseWebSocket.gameStateEv gs) (ws h)) in E1.
  change (lastKeyTime x) with (lastKeyTime h) in E1.
  change (activeEffect x) with (activeEffect h) in E1.
  change (timeouts x) with (timeouts h) in E1.
  change (showGame x) with (showGame h) in E1.
  destruct (settle_cases t x)
    as [[Qx' _] | [(_ & Q1 & ->) | (_ & Q1 & ->)]]; [congruence| |];
    fold h1 in Q1 |- *.
  - (* the status effect left [showGame] as it was *)
    assert (Hsame : showGame h1 = showGame h).
    { rewrite quiescent_split in Q1. apply andb_prop in Q1 as [_ Q1].
      apply negb_true_iff, death_changed_false in Q1.
      rewrite E1 in Q1 at 1. cbn [deathDeps] in Q1.
      apply (f_equal (option_map dep_showGame)) in Q1.
      cbn [option_map cur_deathDeps dep_showGame] in Q1.
      change (showGame x) with (showGame h) in Q1. congruence. }
    rewrite Hsame. rewrite E1. cbn [ws activeEffect timeouts].
    repeat split; try (intro; assumption);
      rewrite (andb_comm (showGame h)); reflexivity.
  - (* the status effect has just switched the game on *)
    assert (W1 : ws h1 = ws x) by apply commit_ws.
    assert (D1 : death_changed h1 = true).
    { rewrite quiescent_split in Q1.
      replace (status_changed h1) with false in Q1
        by (symmetry; apply commit_status_changed).
      cbn [negb andb] in Q1. apply negb_false_iff in Q1. exact Q1. }
    assert (Hoff : showGame h = false /\ showGame h1 = true).
    { destruct (Bool.bool_dec (showGame h1) (showGame h)) as [Heq|Hne].
      - exfalso.
        assert (death_changed h1 = false); [|congruence].
        apply death_changed_false. rewrite E1 at 1. cbn [deathDeps].
        unfold cur_deathDeps, cur_snakes, cur_status. rewrite W1.
        change (showGame x) with (showGame h). rewrite Heq. reflexivity.
      - assert (Hs : showGame h1
                     = if status_changed x
                       then match cur_status x with
                            | Some playing => true
                            | _ => showGame h
                            end
                       else showGame h)
          by (rewrite E1; reflexivity).
        destruct (status_changed x); [|congruence].
        destruct (cur_status x) as [[]|]; try congruence.
        destruct (showGame h); [congruence|]. split; [reflexivity|exact Hs]. }
    destruct Hoff as [Sh S1].
    assert (C1 : status_changed h1 = false)
      by apply commit_status_changed.
    rewrite commit_eq, C1, D1.
    unfold guard_ok, snapshot_effect, snapshot_dead. rewrite W1, S1.
    cbn [ws activeEffect timeouts showGame x set_ws UseWebSocket.on
         UseWebSocket.gameState UseWebSocket.playerId andb].
    fold localId. rewrite andb_true_r.
    rewrite E1. cbn [activeEffect timeouts]. rewrite Sh, !andb_false_r.
    rewrite app_nil_r.
    repeat split.
Qed.

End SnapshotFacts.

(** C6 (as the code has it).  After a snapshot has been processed, if
    the game view is showing and a non-empty local id is known, the
    exposed effect is the first effect of the player with that id when
    this player is present, alive and has an effect, and [null]
    otherwise.  If the view is not showing, or no local id is known, the
    death-detection effect returns at its guard and the exposed effect
    is the one exposed before the snapshot. *)
Theorem active_effect_after_snapshot :
  forall (h : Home.State) (t : Z) (gs : GameState),
    Home.reachable h ->
    let h' := Home.deliver (t, UseWebSocket.gameStateEv gs) h in
    let localId := UseWebSocket.playerId (Home.ws h') in
    Home.activeEffect h' =
      if Home.showGame h' && truthy localId
      then Spec.local_effect localId gs
      else Home.activeEffect h.
Proof.
  intros h t gs Hr h' localId.
  destruct (reachable_settled Hr) as [Q S].
  destruct (advance_settled t h Q) as (A1 & _ & A3 & _ & A5).
  pose proof (advance_stamps_ok t S) as AS.
  destruct (@receive_snapshot t gs (Home.advance t h) A5 AS)
    as (R1 & _ & R3 & _).
  unfold localId, h', Home.deliver. cbn [fst snd].
  rewrite R3, R1, A3. reflexivity.
Qed.

Lemma active_effect_after_snapshot_witness :
  let e := mkEffect speedBoost 5000 in
  let me := mkSnake "p1" [mkPoint 1 1] true 0 [e; mkEffect slowDown 7000] in
  let gs := mkGameState playing [me] [] 100 60 in
  Home.activeEffect
    (Home.run [(0, UseWebSocket.connect (Some "p1"));
               (10, UseWebSocket.gameStateEv gs)] (Home.mount 0))
  = Some e.
Proof.
  intros e me gs.
  exact (@active_effect_after_snapshot
           (Home.deliver (0, UseWebSocket.connect (Some "p1")) (Home.mount 0))
           10 gs
           (Home.reach_deliver _ (Home.reach_mount 0))).
Defined.

(** C6, the claim as stated fails when the game view is not showing.
    First: a snapshot in the lobby phase in which the local player is
    alive and has an effect leaves the exposed effect [null].  Second:
    after a stale timeout has hidden the view, a snapshot in which the
    local player has no effect any more leaves the old effect exposed. *)
Lemma active_effect_not_updated_when_hidden :
  let e := mkEffect speedBoost 5000 in
  let me alive effects := mkSnake "p1" [mkPoint 1 1] alive 0 effects in
  let gs st alive effects := mkGameState st [me alive effects] [] 100 60 in
  let h0 := Home.deliver (0, UseWebSocket.connect (Some "p1"))
              (Home.mount 0) in
  let a := Home.deliver (10, UseWebSocket.gameStateEv (gs lobby true [e]))
             h0 in
  let b := Home.run
             [(10, UseWebSocket.gameStateEv (gs playing true []));
              (100, UseWebSocket.gameStateEv (gs playing false []));
              (200, UseWebSocket.gameStateEv (gs playing true [e]));
              (1200, UseWebSocket.gameStateEv (gs playing true []))] h0 in
  (Spec.local_effect (UseWebSocket.playerId (Home.ws a))
     (gs lobby true [e]) = Some e
   /\ Home.activeEffect a = None)
  /\ (Spec.local_effect (UseWebSocket.playerId (Home.ws b))
        (gs playing true []) = None
      /\ Home.activeEffect b = Some e).
Proof. vm_compute. repeat split. Qed.

Section RevertFacts.
Import Home HomeAux.

Lemma none_due (lo u : Z) (l : list Z) :
  Forall (fun d => lo <= d) l -> u < lo ->
  existsb (fun d => d <=? u) l = false
  /\ filter (fun d => u <? d) l = l.
Proof.
  intros H Hu. induction H as [|d l Hd _ [IH1 IH2]]; simpl.
  - split; reflexivity.
  - destruct (Z.leb_spec d u); [lia|].
    destruct (Z.ltb_spec u d); [|lia].
    rewrite IH1, IH2. split; reflexivity.
Qed.

Lemma some_due (due : Z) (l : list Z) :
  In due l -> existsb (fun d => d <=? due) l = true.
Proof.
  intro H. apply existsb_exists. exists due. split; [exact H|].
  apply Z.leb_refl.
Qed.

(** The first snapshot that shows the local player dead starts the
    timeout. *)
Lemma revert_started (t : Z) (gs : GameState) (h0 : State) :
  quiescent h0 = true -> stamps_ok h0 ->
  showGame h0 = true -> timeouts h0 = [] ->
  truthy (UseWebSocket.playerId (ws h0)) = true ->
  Spec.local_dead (UseWebSocket.playerId (ws h0)) gs = true ->
  revert_pending (t + 1000) (deliver (t, UseWebSocket.gameStateEv gs) h0).
Proof.
  intros Q S Hshow Hno Hid Hdead.
  destruct (advance_settled t h0 Q) as (A1 & A2 & _ & A4 & A5).
  pose proof (advance_stamps_ok t S) as AS.
  unfold due_by in A2. rewrite Hno in A2, A4. simpl in A2, A4.
  rewrite Hshow in A2.
  destruct (@receive_snapshot t gs (advance t h0) A5 AS)
    as (_ & R2 & _ & R4).
  specialize (R2 A2). rewrite R2, A1, Hid, Hdead, A4 in R4. simpl in R4.
  destruct (@receive_settled t (UseWebSocket.gameStateEv gs)
              (advance t h0) AS) as [RQ RS].
  unfold deliver. cbn [fst snd]. unfold revert_pending.
  rewrite R4. refine (conj RQ (conj RS (conj R2 (conj _ _)))).
  - left. reflexivity.
  - constructor; [lia | constructor].
Qed.

(** No event handled before the timeout is due takes it back. *)
Lemma revert_kept (due : Z) (te : Z * UseWebSocket.Event) (h : State) :
  revert_pending due h -> due - 1000 <= fst te < due ->
  revert_pending due (deliver te h).
Proof.
  intros (Q & S & Hshow & Hin & Hall) [Hlo Hhi].
  destruct (advance_settled (fst te) h Q) as (_ & A2 & _ & A4 & _).
  pose proof (advance_stamps_ok (fst te) S) as AS.
  destruct (none_due Hall Hhi) as [N1 N2].
  unfold due_by in A2. rewrite N1, Hshow in A2. rewrite N2 in A4.
  destruct (@receive_settled (fst te) (snd te) (advance (fst te) h) AS)
    as [RQ RS].
  unfold deliver, revert_pending.
  refine (conj RQ (conj RS (conj _ (conj _ _)))).
  - unfold receive. apply settle_showGame_true. exact A2.
  - unfold receive. apply settle_timeouts_incl.
    cbn [timeouts set_ws]. rewrite A4. exact Hin.
  - unfold receive. apply settle_timeouts_bound; [lia|].
    cbn [timeouts set_ws]. rewrite A4. exact Hall.
Qed.

Lemma revert_kept_run (due : Z) (l : list (Z * UseWebSocket.Event)) :
  Forall (fun te => due - 1000 <= fst te < due) l ->
  forall h, revert_pending due h -> revert_pending due (run l h).
Proof.
  induction 1 as [|te l Hte _ IH]; intros h Hp; simpl.
  - exact Hp.
  - apply IH. apply revert_kept; assumption.
Qed.

End RevertFacts.

(** C1 (as the code has it).  Take a page that shows the game, knows
    its local id and has no revert pending, and let it receive at time
    [t] a snapshot in which the local player is dead.  Whatever the
    socket delivers during the next 1000 ms, the flag stays true at
    every time before [t + 1000] and is false at [t + 1000].  The events
    in between include snapshots in which the local player is alive
    again: the timeout is not cancelled by them, its callback still runs
    at [t + 1000] and hides the game. *)
Theorem death_revert_timing :
  forall (h0 : Home.State) (t : Z) (gs : GameState)
         (later : list (Z * UseWebSocket.Event)),
    Home.reachable h0 ->
    Home.showGame h0 = true ->
    Home.timeouts h0 = [] ->
    truthy (UseWebSocket.playerId (Home.ws h0)) = true ->
    Spec.local_dead (UseWebSocket.playerId (Home.ws h0)) gs = true ->
    Forall (fun te => t <= fst te < t + 1000) later ->
    let h := Home.run later
               (Home.deliver (t, UseWebSocket.gameStateEv gs) h0) in
    (forall q, q < t + 1000 -> Home.showGame (Home.advance q h) = true)
    /\ Home.showGame (Home.advance (t + 1000) h) = false.
Proof.
  intros h0 t gs later Hr Hshow Hno Hid Hdead Hlater h.
  destruct (reachable_settled Hr) as [Q S].
  assert (Hp : HomeAux.revert_pending (t + 1000) h).
  { apply revert_kept_run.
    - eapply Forall_impl; [|exact Hlater]. cbv beta. intros; lia.
    - apply revert_started; assumption. }
  destruct Hp as (Qh & _ & Sh & Hin & Hall).
  split.
  - intros q Hq.
    destruct (advance_settled q h Qh) as (_ & A2 & _).
    destruct (none_due Hall Hq) as [N1 _].
    unfold HomeAux.due_by in A2. rewrite N1 in A2. congruence.
  - destruct (advance_settled (t + 1000) h Qh) as (_ & A2 & _).
    unfold HomeAux.due_by in A2. rewrite (some_due _ _ Hin) in A2.
    exact A2.
Qed.

Lemma death_revert_timing_witness :
  let me alive := mkSnake "p1" [mkPoint 1 1] alive 0 [] in
  let gs alive := mkGameState playing [me alive] [] 100 60 in
  let h := Home.run
             [(0, UseWebSocket.connect (Some "p1"));
              (10, UseWebSocket.gameStateEv (gs true));
              (100, UseWebSocket.gameStateEv (gs false));
              (200, UseWebSocket.gameStateEv (gs true))] (Home.mount 0) in
  Home.showGame (Home.advance 1099 h) = true
  /\ Home.showGame (Home.advance 1100 h) = false.
Proof.
  intros me gs h.
  destruct (@death_revert_timing
              (Home.deliver (10, UseWebSocket.gameStateEv (gs true))
                 (Home.deliver (0, UseWebSocket.connect (Some "p1"))
                    (Home.mount 0)))
              100 (gs false) [(200, UseWebSocket.gameStateEv (gs true))]
              (Home.reach_deliver _
                 (Home.reach_deliver _ (Home.reach_mount 0)))
              eq_refl eq_refl eq_refl eq_refl
              ltac:(repeat constructor; cbn; lia))
    as [H1 H2].
  split.
  - apply H1. lia.
  - exact H2.
Defined.

(** C1, the claim as stated fails: the local player is dead in the
    snapshot of time 100 and alive again in the one of time 200, well
    before the delay has elapsed; the timeout is still pending after
    that snapshot, and at time 1100 it hides the game. *)
Lemma stale_revert_still_fires :
  let me alive := mkSnake "p1" [mkPoint 1 1] alive 0 [] in
  let gs alive := mkGameState playing [me alive] [] 100 60 in
  let h := Home.run
             [(0, UseWebSocket.connect (Some "p1"));
              (10, UseWebSocket.gameStateEv (gs true));
              (100, UseWebSocket.gameStateEv (gs false));
              (200, UseWebSocket.gameStateEv (gs true))] (Home.mount 0) in
  Spec.local_dead (UseWebSocket.playerId (Home.ws h)) (gs true) = false
  /\ Home.timeouts h = [1100]
  /\ Home.showGame (Home.advance 1099 h) = true
  /\ Home.showGame (Home.advance 1100 h) = false
  /\ Home.showGame (Home.advance 1100 h) <> true.
Proof. vm_compute. repeat split. discriminate. Qed.

(** * Further properties of the code *)

(** ** The hook: send paths and listeners *)

Section HookMore.
Import UseWebSocket.

Lemma run_snoc (evs : list Event) (e : Event) (s : State) :
  run (evs ++ [e]) s = on e (run evs s).
Proof. unfold run. now rewrite fold_left_app. Qed.

Lemma last_of_snoc {E A : Type} (f : E -> option A) (evs : list E) (e : E) :
  Traces.last_of f (evs ++ [e])
  = match f e with Some a => Some a | None => Traces.last_of f evs end.
Proof. unfold Traces.last_of. now rewrite fold_left_app. Qed.

(** The two outcomes of [sendMove], with everything it leaves alone. *)
Lemma sendMove_cases (d : Direction) (s : State) :
  exists s',
    sendMove d s = Ok s'
    /\ sent s' =
         sent s ++
         (if match socketRef s with Some _ => true | None => false end
             && isConnected s
          then [EmitMove d] else [])
    /\ gameState s' = gameState s
    /\ lobbyStatus s' = lobbyStatus s
    /\ isConnected s' = isConnected s
    /\ playerId s' = playerId s.
Proof.
  unfold sendMove, sent.
  destruct (socketRef s) as [sock|] eqn:Hs; simpl.
  - destruct (isConnected s) eqn:Hc; simpl.
    + eexists. split; [reflexivity|].
      repeat split; simpl; try exact Hc; reflexivity.
    + exists s. rewrite Hs, app_nil_r. repeat split; assumption.
  - exists s. rewrite Hs. repeat split.
Qed.

End HookMore.

(** X1.  [startGame] never raises.  On a connected session with a
    socket it hands exactly one [startGame] to the transport, after what
    was emitted before; otherwise it emits nothing.  In both cases the
    rest of the hook's state is untouched. *)
Theorem startGame_guarded :
  forall s : UseWebSocket.State,
    exists s',
      UseWebSocket.startGame s = Ok s'
      /\ UseWebSocket.sent s' =
           UseWebSocket.sent s ++
           (if match UseWebSocket.socketRef s with
               | Some _ => true | None => false end
               && UseWebSocket.isConnected s
            then [UseWebSocket.EmitStartGame] else [])
      /\ UseWebSocket.gameState s' = UseWebSocket.gameState s
      /\ UseWebSocket.lobbyStatus s' = UseWebSocket.lobbyStatus s
      /\ UseWebSocket.isConnected s' = UseWebSocket.isConnected s
      /\ UseWebSocket.playerId s' = UseWebSocket.playerId s.
Proof.
  intro s. unfold UseWebSocket.startGame, UseWebSocket.sent.
  destruct (UseWebSocket.socketRef s) as [sock|] eqn:Hs; simpl.
  - destruct (UseWebSocket.isConnected s) eqn:Hc; simpl.
    + eexists. split; [reflexivity|].
      repeat split; simpl; try exact Hc; reflexivity.
    + exists s. rewrite Hs, app_nil_r. repeat split; assumption.
  - exists s. rewrite Hs. repeat split.
Qed.

(** X2.  [sendMove] never raises, whatever the state of the hook.  It
    emits exactly one [move] carrying the given direction, after what
    was emitted before, when there is a socket and the session is
    connected, and nothing otherwise; the snapshot, the lobby status,
    the connection flag and the local id are left as they were. *)
Theorem sendMove_complete :
  forall (direction : Direction) (s : UseWebSocket.State),
    exists s',
      UseWebSocket.sendMove direction s = Ok s'
      /\ UseWebSocket.sent s' =
           UseWebSocket.sent s ++
           (if match UseWebSocket.socketRef s with
               | Some _ => true | None => false end
               && UseWebSocket.isConnected s
            then [UseWebSocket.EmitMove direction] else [])
      /\ UseWebSocket.gameState s' = UseWebSocket.gameState s
      /\ UseWebSocket.lobbyStatus s' = UseWebSocket.lobbyStatus s
      /\ UseWebSocket.isConnected s' = UseWebSocket.isConnected s
      /\ UseWebSocket.playerId s' = UseWebSocket.playerId s.
Proof. intros direction s. apply sendMove_cases. Qed.

(** X3.  After any sequence of socket events the hook holds, for each
    of its fields, what the last event that writes this field carried:
    the snapshot of the last [gameState], the status of the last
    [lobbyUpdate], the flag of the last [connect] or [disconnect], the
    id of the last [connect].  Events of the other kinds do not touch
    the field; in particular the last snapshot is kept through a
    disconnection. *)
Theorem hook_holds_last_written :
  forall (evs : list UseWebSocket.Event) (s : UseWebSocket.State),
    let s' := UseWebSocket.run evs s in
    option_map snd (UseWebSocket.gameState s')
      = match Traces.last_of Traces.snapshot_of evs with
        | Some st => Some st
        | None => option_map snd (UseWebSocket.gameState s)
        end
    /\ UseWebSocket.lobbyStatus s'
      = match Traces.last_of Traces.lobby_of evs with
        | Some st => Some st
        | None => UseWebSocket.lobbyStatus s
        end
    /\ UseWebSocket.isConnected s'
      = match Traces.last_of Traces.connection_of evs with
        | Some b => b
        | None => UseWebSocket.isConnected s
        end
    /\ UseWebSocket.playerId s'
      = match Traces.last_of Traces.identity_of evs with
        | Some i => i
        | None => UseWebSocket.playerId s
        end.
Proof.
  intros evs s. induction evs as [|e evs IH] using rev_ind.
  - repeat split.
  - cbv zeta in *. destruct IH as (I1 & I2 & I3 & I4).
    rewrite run_snoc, !last_of_snoc.
    destruct e; cbn [UseWebSocket.on UseWebSocket.gameState
                     UseWebSocket.lobbyStatus UseWebSocket.isConnected
                     UseWebSocket.playerId Traces.snapshot_of
                     Traces.lobby_of Traces.connection_of
                     Traces.identity_of option_map snd];
      repeat split; assumption.
Qed.

(** ** The keyboard handler over time *)

Section KeysMore.
Import UseWebSocket.

Lemma key_direction_unit (key : string) (d : Direction) :
  Keyboard.key_direction key = Some d -> Traces.unit_step d.
Proof.
  unfold Keyboard.key_direction, Traces.unit_step.
  repeat match goal with
         | |- context [if ?c then _ else _] => destruct c
         end;
    intro H; try discriminate; injection H as <-; simpl; lia.
Qed.

(** One call of the handler on the hook's send path: either nothing
    happens to the transport, or the key was accepted and [sendMove] was
    called with its direction. *)
Lemma handleKeyDown_hook (last now : Z) (key : string) (w : State) :
  exists w' last',
    Keyboard.handleKeyDown sendMove last key now w = Ok (w', last')
    /\ ((sent w' = sent w
         /\ (last' = last \/ (last + 50 <= now /\ last' = now)))
        \/ (last + 50 <= now /\ last' = now
            /\ exists d, Keyboard.key_direction key = Some d
                         /\ sent w' = sent w ++ [EmitMove d])).
Proof.
  unfold Keyboard.handleKeyDown.
  destruct (Z.ltb_spec (now - last) 50) as [Hlt|Hge].
  - exists w, last. split; [reflexivity|].
    left. split; [reflexivity|]. left. reflexivity.
  - destruct (Keyboard.key_direction key) as [d|] eqn:Hk.
    + destruct (sendMove_cases d w) as (w' & E & Hsent & _).
      rewrite E. cbn [bind fst snd]. exists w', now.
      split; [reflexivity|].
      destruct (match socketRef w with Some _ => true | None => false end
                && isConnected w).
      * right. split; [lia|]. split; [reflexivity|].
        exists d. split; [reflexivity | exact Hsent].
      * left. rewrite app_nil_r in Hsent. split; [exact Hsent|].
        right. split; [lia | reflexivity].
    + exists w, last. split; [reflexivity|].
      left. split; [reflexivity|]. left. reflexivity.
Qed.

(** The invariant behind the bound on the rate: with [n] moves emitted
    so far for events in the window from [a] to [b], the last accepted
    time is at least [a + 50 (n - 1)]. *)
Lemma handleKeys_window (a b : Z) (evs : list (Z * string)) :
  Forall (fun te => a <= fst te <= b) evs ->
  forall (last n : Z) (w : State),
    0 <= n -> (n = 0 \/ a + 50 * (n - 1) <= last <= b) ->
    exists w' last' new,
      Traces.handleKeys sendMove evs last w = Ok (w', last')
      /\ sent w' = sent w ++ new
      /\ Forall Traces.unit_move new
      /\ (n + Z.of_nat (List.length new) = 0
          \/ a + 50 * (n + Z.of_nat (List.length new) - 1) <= last' <= b).
Proof.
  induction 1 as [|[now key] evs Hte _ IH]; intros last n w Hn Hinv.
  - exists w, last, []. simpl. rewrite app_nil_r, Z.add_0_r.
    split; [reflexivity|]. split; [reflexivity|].
    split; [constructor | exact Hinv].
  - cbn [fst] in Hte. cbn [Traces.handleKeys].
    destruct (handleKeyDown_hook last now key w)
      as (w1 & last1 & E & Hcase).
    rewrite E. cbn [bind fst snd].
    destruct Hcase as [[Hsent Hlast] | (Hgap & -> & d & Hd & Hsent)].
    + destruct (IH last1 n w1 Hn) as (w' & last' & new & E' & S' & U' & B').
      { destruct Hlast as [-> | [Hgap ->]]; [exact Hinv|].
        destruct Hinv as [-> | Hinv]; [left; reflexivity | right; lia]. }
      exists w', last', new. rewrite <- Hsent.
      repeat split; assumption.
    + destruct (IH now (n + 1) w1 ltac:(lia)) as (w' & last' & new & E' & S' & U' & B').
      { right. destruct Hinv as [-> | Hinv]; lia. }
      exists w', last', (EmitMove d :: new).
      split; [exact E'|]. split.
      { rewrite S', Hsent, <- app_assoc. reflexivity. }
      split.
      { constructor; [|exact U']. exact (key_direction_unit _ Hd). }
      cbn [List.length]. rewrite Nat2Z.inj_succ.
      replace (n + Z.succ (Z.of_nat (List.length new)))
        with (n + 1 + Z.of_nat (List.length new)) by lia.
      exact B'.
Qed.

End KeysMore.

(** X4.  Whatever keys are pressed and whenever, every message the
    keyboard handler puts on the transport is a [move] whose direction
    is one step along one axis: [dx] and [dy] are in {-1, 0, 1} and
    exactly one of them is not 0.  The handler never raises, and what
    was emitted before stays in place. *)
Theorem keys_emit_unit_moves :
  forall (evs : list (Z * string)) (lastKeyTime : Z)
         (w : UseWebSocket.State),
    exists w' lastKeyTime' new,
      Traces.handleKeys UseWebSocket.sendMove evs lastKeyTime w
        = Ok (w', lastKeyTime')
      /\ UseWebSocket.sent w' = UseWebSocket.sent w ++ new
      /\ Forall Traces.unit_move new.
Proof.
  intros evs last w.
  induction evs as [|[now key] evs IH] in last, w |- *.
  - exists w, last, []. simpl. rewrite app_nil_r. repeat split; constructor.
  - cbn [Traces.handleKeys].
    destruct (handleKeyDown_hook last now key w)
      as (w1 & last1 & E & Hcase).
    rewrite E. cbn [bind fst snd].
    destruct (IH last1 w1) as (w' & last' & new & E' & S' & U').
    destruct Hcase as [[Hsent _] | (_ & _ & d & Hd & Hsent)].
    + exists w', last', new. rewrite <- Hsent. repeat split; assumption.
    + exists w', last', (UseWebSocket.EmitMove d :: new).
      split; [exact E'|]. split.
      * rewrite S', Hsent, <- app_assoc. reflexivity.
      * constructor; [exact (key_direction_unit _ Hd) | exact U'].
Qed.

(** X5.  The throttle bounds the outbound rate.  For key events all
    handled at times between [a] and [b], however many they are and
    whatever [lastKeyTime] was before, the handler puts at most
    [(b - a) / 50 + 1] moves on the transport. *)
Theorem keys_rate_bound :
  forall (a b : Z) (evs : list (Z * string)) (lastKeyTime : Z)
         (w : UseWebSocket.State),
    a <= b ->
    Forall (fun te => a <= fst te <= b) evs ->
    exists w' lastKeyTime' new,
      Traces.handleKeys UseWebSocket.sendMove evs lastKeyTime w
        = Ok (w', lastKeyTime')
      /\ UseWebSocket.sent w' = UseWebSocket.sent w ++ new
      /\ Z.of_nat (List.length new) <= (b - a) / 50 + 1.
Proof.
  intros a b evs last w Hab Hall.
  destruct (@handleKeys_window a b evs Hall last 0 w (Z.le_refl 0)
              (or_introl eq_refl))
    as (w' & last' & new & E & S & _ & B).
  exists w', last', new. split; [exact E|]. split; [exact S|].
  rewrite Z.add_0_l in B.
  assert (0 <= (b - a) / 50) by (apply Z.div_pos; lia).
  destruct B as [B|B]; [lia|].
  assert (Z.of_nat (List.length new) - 1 <= (b - a) / 50);
    [|lia].
  apply Z.div_le_lower_bound; lia.
Qed.

Lemma keys_rate_bound_witness :
  let w := UseWebSocket.run [UseWebSocket.connect (Some "abc")]
             (UseWebSocket.mount UseWebSocket.initial) in
  exists w' last' new,
    Traces.handleKeys UseWebSocket.sendMove
      [(1000, "w"); (1030, "a"); (1060, "s"); (1100, "d")] 0 w
      = Ok (w', last')
    /\ UseWebSocket.sent w' = UseWebSocket.sent w ++ new
    /\ Z.of_nat (List.length new) <= (1100 - 1000) / 50 + 1.
Proof.
  intro w.
  apply (@keys_rate_bound 1000 1100
           [(1000, "w"); (1030, "a"); (1060, "s"); (1100, "d")] 0 w).
  - lia.
  - repeat constructor; cbn; lia.
Defined.

(** X6.  Keys outside the eight mapped ones are invisible to the
    handler: they emit nothing and do not use up the 50 ms window, so a
    sequence of key events has the same outcome as the sequence without
    its unmapped keys. *)
Theorem unmapped_keys_transparent :
  forall (T : Type) (sendMove : Direction -> T -> outcome T)
         (evs : list (Z * string)) (lastKeyTime : Z) (st : T),
    Traces.handleKeys sendMove evs lastKeyTime st
    = Traces.handleKeys sendMove
        (filter (fun te => match Keyboard.key_direction (snd te) with
                           | Some _ => true
                           | None => false
                           end) evs)
        lastKeyTime st.
Proof.
  intros T sendMove evs. induction evs as [|[now key] evs IH];
    intros last st; [reflexivity|].
  cbn [filter snd].
  destruct (Keyboard.key_direction key) as [d|] eqn:Hk.
  - cbn [Traces.handleKeys].
    destruct (Keyboard.handleKeyDown sendMove last key now st)
      as [[st' last']|err]; [|reflexivity].
    cbn [bind fst snd]. apply IH.
  - cbn [Traces.handleKeys]. unfold Keyboard.handleKeyDown at 1.
    rewrite Hk. destruct (now - last <? 50); cbn [bind fst snd]; apply IH.
Qed.

(** ** The countdown over time *)

Section CountdownMore.
Import EffectIndicator.

Lemma advance_fuel_stopped (fuel : nat) (t : Z) (s : State) :
  updateTimer s = None -> advance_fuel fuel t s = s.
Proof. intro H. destruct fuel; simpl; [reflexivity|]. now rewrite H. Qed.

Lemma advance_fuel_not_due (fuel : nat) (t : Z) (s : State)
  (eff : ActiveEffect) (due : Z) :
  updateTimer s = Some (eff, due) -> t < due -> advance_fuel fuel t s = s.
Proof.
  intros H Hlt. destruct fuel; simpl; [reflexivity|]. rewrite H.
  destruct (Z.leb_spec due t); [lia | reflexivity].
Qed.

(** Where the countdown stands when the clock has reached [t]: its last
    tick was at [due + 100 j]; either that tick found the effect expired
    and stopped the interval, or the next tick is still to come. *)
Lemma advance_fuel_last_tick (fuel : nat) (t : Z) :
  forall (s : State) (eff : ActiveEffect) (due : Z),
    updateTimer s = Some (eff, due) -> effect s = Some eff ->
    due <= t -> (t - due) / 100 + 1 <= Z.of_nat fuel ->
    exists j,
      0 <= j /\ due + 100 * j <= t
      /\ effect (advance_fuel fuel t s) = Some eff
      /\ ((endTime eff <= due + 100 * j
           /\ updateTimer (advance_fuel fuel t s) = None
           /\ timeLeft (advance_fuel fuel t s) = 0)
          \/ (t < due + 100 * j + 100 /\ due + 100 * j < endTime eff
              /\ updateTimer (advance_fuel fuel t s)
                 = Some (eff, due + 100 * j + 100)
              /\ timeLeft (advance_fuel fuel t s)
                 = Qceiling (inject_Z (endTime eff - (due + 100 * j))
                             / 1000))).
Proof.
  induction fuel as [|k IH]; intros s eff due Ht He Hdue Hfuel.
  - exfalso. assert (0 <= (t - due) / 100) by (apply Z.div_pos; lia).
    simpl in Hfuel. lia.
  - cbn [advance_fuel]. rewrite Ht.
    destruct (Z.leb_spec due t) as [_|]; [|lia].
    set (s1 := tick due s).
    assert (E1 : effect s1 = Some eff)
      by (unfold s1, tick; rewrite Ht; exact He).
    assert (T1 : timeLeft s1
                 = Qceiling (inject_Z (Z.max 0 (endTime eff - due)) / 1000))
      by (unfold s1, tick; rewrite Ht; reflexivity).
    assert (U1 : updateTimer s1
                 = if Z.max 0 (endTime eff - due) <=? 0 then None
                   else Some (eff, due + 100))
      by (unfold s1, tick; rewrite Ht; reflexivity).
    destruct (Z.leb_spec (Z.max 0 (endTime eff - due)) 0) as [Hexp|Hrun].
    + (* expired: the interval is cleared *)
      rewrite (advance_fuel_stopped k t s1 U1).
      exists 0. rewrite Z.mul_0_r, Z.add_0_r.
      split; [lia|]. split; [lia|]. split; [exact E1|].
      left. split; [lia|]. split; [exact U1|].
      rewrite T1. replace (Z.max 0 (endTime eff - due)) with 0 by lia.
      reflexivity.
    + destruct (Z_lt_le_dec t (due + 100)) as [Hnext|Hmore].
      * (* the next tick is after [t] *)
        rewrite (advance_fuel_not_due k s1 U1 Hnext).
        exists 0. rewrite Z.mul_0_r, Z.add_0_r.
        split; [lia|]. split; [lia|]. split; [exact E1|].
        right. split; [lia|]. split; [lia|]. split; [exact U1|].
        rewrite T1. replace (Z.max 0 (endTime eff - due))
          with (endTime eff - due) by lia.
        reflexivity.
      * (* more ticks are due *)
        assert (Hdiv : (t - (due + 100)) / 100 = (t - due) / 100 - 1).
        { replace (t - (due + 100)) with ((t - due) + (-1) * 100) by lia.
          rewrite Z.div_add by lia. lia. }
        destruct (IH s1 eff (due + 100) U1 E1 Hmore ltac:(lia))
          as (j & Hj & Hle & He' & Hcase).
        exists (j + 1).
        replace (due + 100 * (j + 1)) with (due + 100 + 100 * j) by lia.
        split; [lia|]. split; [exact Hle|]. split; [exact He'|].
        exact Hcase.
Qed.

(** The same for the countdown started by a new effect object. *)
Lemma countdown_last_tick (s : State) (now : Z) (e : ActiveEffect) (t : Z) :
  now + 100 <= t ->
  let r := advance t (setEffect now (Some e) s) in
  exists j,
    0 <= j /\ now + 100 + 100 * j <= t
    /\ effect r = Some e
    /\ ((endTime e <= now + 100 + 100 * j
         /\ updateTimer r = None /\ timeLeft r = 0)
        \/ (t < now + 100 + 100 * j + 100
            /\ now + 100 + 100 * j < endTime e
            /\ updateTimer r = Some (e, now + 100 + 100 * j + 100)
            /\ timeLeft r
               = Qceiling (inject_Z (endTime e - (now + 100 + 100 * j))
                           / 1000))).
Proof.
  intros Ht r. unfold r, advance.
  cbn [setEffect run_effect updateTimer].
  apply advance_fuel_last_tick; try reflexivity; [exact Ht|].
  assert (0 <= (t - (now + 100)) / 100) by (apply Z.div_pos; lia).
  rewrite Z2Nat.id; lia.
Qed.

End CountdownMore.

(** X7.  A tick of the countdown stops the interval exactly when the
    effect has expired.  If the end time has been reached the remaining
    value becomes 0, the interval is cleared and nothing is rendered;
    if it has not, the remaining value is at least 1, the interval goes
    on with its next tick 100 ms later, and the indicator is shown. *)
Theorem tick_stops_at_expiry :
  forall (s : EffectIndicator.State) (eff : ActiveEffect) (due now : Z),
    EffectIndicator.reachable s ->
    EffectIndicator.updateTimer s = Some (eff, due) ->
    let s' := EffectIndicator.tick now s in
    (endTime eff <= now ->
       EffectIndicator.timeLeft s' = 0
       /\ EffectIndicator.updateTimer s' = None
       /\ EffectIndicator.render s' = None)
    /\ (now < endTime eff ->
          1 <= EffectIndicator.timeLeft s'
          /\ EffectIndicator.updateTimer s' = Some (eff, due + 100)
          /\ EffectIndicator.visible s' = true).
Proof.
  intros s eff due now Hr Ht s'.
  destruct (reachable_inv Hr) as [Hcap _]. specialize (Hcap _ _ Ht).
  assert (T : EffectIndicator.timeLeft s'
              = Qceiling (inject_Z (Z.max 0 (endTime eff - now)) / 1000))
    by (unfold s', EffectIndicator.tick; rewrite Ht; reflexivity).
  assert (U : EffectIndicator.updateTimer s'
              = if Z.max 0 (endTime eff - now) <=? 0 then None
                else Some (eff, due + 100))
    by (unfold s', EffectIndicator.tick; rewrite Ht; reflexivity).
  assert (E : EffectIndicator.effect s' = Some eff)
    by (unfold s', EffectIndicator.tick; rewrite Ht; exact Hcap).
  pose proof (ceil_seconds_pos (Z.max 0 (endTime eff - now))) as Hpos.
  split; intro Hnow.
  - replace (Z.max 0 (endTime eff - now)) with 0 in T, U by lia.
    split; [exact T|]. split; [exact U|].
    unfold EffectIndicator.render. rewrite E, T. reflexivity.
  - rewrite <- T in Hpos.
    assert (0 < EffectIndicator.timeLeft s') by (apply Hpos; lia).
    split; [lia|]. split.
    + rewrite U. destruct (Z.leb_spec (Z.max 0 (endTime eff - now)) 0);
        [lia | reflexivity].
    + unfold EffectIndicator.visible, EffectIndicator.render. rewrite E.
      destruct (Z.leb_spec (EffectIndicator.timeLeft s') 0);
        [lia | reflexivity].
Qed.

Lemma tick_stops_at_expiry_witness :
  let s := EffectIndicator.mount 0 (Some (mkEffect slowDown 5000)) in
  EffectIndicator.render (EffectIndicator.tick 5000 s) = None
  /\ EffectIndicator.visible (EffectIndicator.tick 4999 s) = true.
Proof.
  intro s.
  destruct (@tick_stops_at_expiry s (mkEffect slowDown 5000) 100 5000
              (EffectIndicator.reach_mount 0 _) eq_refl) as [H1 _].
  destruct (@tick_stops_at_expiry s (mkEffect slowDown 5000) 100 4999
              (EffectIndicator.reach_mount 0 _) eq_refl) as [_ H2].
  split.
  - apply H1. simpl. lia.
  - apply H2. simpl. lia.
Defined.

(** X8.  For an effect object handed in at time [now], and with no
    other object handed in meanwhile: from the first tick, at
    [now + 100], until the end time the indicator is shown at every
    moment, so it never reports nothing active before the effect has
    expired; from 100 ms after the end time on the interval has stopped
    and nothing is rendered, and letting more time pass changes nothing
    any more. *)
Theorem countdown_window :
  forall (s : EffectIndicator.State) (now : Z) (e : ActiveEffect) (t : Z),
    now + 100 <= t ->
    let r := EffectIndicator.advance t
               (EffectIndicator.setEffect now (Some e) s) in
    (t < endTime e -> EffectIndicator.visible r = true)
    /\ (endTime e + 100 <= t ->
          EffectIndicator.render r = None
          /\ EffectIndicator.updateTimer r = None
          /\ forall t', EffectIndicator.advance t' r = r).
Proof.
  intros s now e t Ht r.
  destruct (@countdown_last_tick s now e t Ht)
    as (j & Hj & Hle & He & Hcase).
  fold r in He, Hcase.
  split; intro Hwin.
  - destruct Hcase as [(Hexp & _) | (_ & Hlive & _ & Htl)]; [lia|].
    unfold EffectIndicator.visible, EffectIndicator.render. rewrite He.
    pose proof (ceil_seconds_pos (endTime e - (now + 100 + 100 * j)))
      as Hpos.
    rewrite <- Htl in Hpos.
    destruct (Z.leb_spec (EffectIndicator.timeLeft r) 0) as [Hz|];
      [|reflexivity].
    assert (0 < EffectIndicator.timeLeft r) by (apply Hpos; lia). lia.
  - destruct Hcase as [(_ & Hu & Htl) | (Hnext & Hlive & _)]; [|lia].
    split.
    + unfold EffectIndicator.render. rewrite He, Htl. reflexivity.
    + split; [exact Hu|]. intro t'.
      unfold EffectIndicator.advance. rewrite Hu. reflexivity.
Qed.

Lemma countdown_window_witness :
  let s' := EffectIndicator.setEffect 0 (Some (mkEffect speedBoost 5000))
              (EffectIndicator.mount 0 None) in
  EffectIndicator.visible (EffectIndicator.advance 4999 s') = true
  /\ EffectIndicator.render (EffectIndicator.advance 5100 s') = None.
Proof.
  intro s'.
  destruct (@countdown_window (EffectIndicator.mount 0 None) 0
              (mkEffect speedBoost 5000) 4999 ltac:(lia)) as [H1 _].
  destruct (@countdown_window (EffectIndicator.mount 0 None) 0
              (mkEffect speedBoost 5000) 5100 ltac:(lia)) as [_ H2].
  split.
  - apply H1. simpl. lia.
  - apply H2. simpl. lia.
Defined.

(** X9.  For an effect object handed in at time [now], and with no
    other object handed in meanwhile, the remaining seconds held by the
    indicator never go up as time passes: between any two moments after
    the first tick the later value is at most the earlier one, and it is
    never negative. *)
Theorem countdown_non_increasing :
  forall (s : EffectIndicator.State) (now : Z) (e : ActiveEffect)
         (t1 t2 : Z),
    now + 100 <= t1 -> t1 <= t2 ->
    let s' := EffectIndicator.setEffect now (Some e) s in
    0 <= EffectIndicator.timeLeft (EffectIndicator.advance t2 s')
      <= EffectIndicator.timeLeft (EffectIndicator.advance t1 s').
Proof.
  intros s now e t1 t2 H1 H12 s'.
  destruct (@countdown_last_tick s now e t1 H1)
    as (j1 & Hj1 & Hle1 & _ & Hcase1).
  destruct (@countdown_last_tick s now e t2 ltac:(lia))
    as (j2 & Hj2 & Hle2 & _ & Hcase2).
  fold s' in Hcase1, Hcase2.
  pose proof (ceil_seconds (endTime e - (now + 100 + 100 * j1))) as C1.
  pose proof (ceil_seconds (endTime e - (now + 100 + 100 * j2))) as C2.
  cbv zeta in C1, C2.
  destruct Hcase1 as [(X1 & _ & T1) | (N1 & L1 & _ & T1)];
    destruct Hcase2 as [(X2 & _ & T2) | (N2 & L2 & _ & T2)];
    rewrite T1, T2.
  - lia.
  - exfalso. lia.
  - set (n1 := Qceiling _) in *. clearbody n1. lia.
  - set (n1 := Qceiling (inject_Z (endTime e - (now + 100 + 100 * j1)) / 1000))
      in *.
    set (n2 := Qceiling (inject_Z (endTime e - (now + 100 + 100 * j2)) / 1000))
      in *.
    clearbody n1 n2. lia.
Qed.

Lemma countdown_non_increasing_witness :
  let s' := EffectIndicator.setEffect 0 (Some (mkEffect speedBoost 5000))
              (EffectIndicator.mount 0 None) in
  0 <= EffectIndicator.timeLeft (EffectIndicator.advance 3000 s')
    <= EffectIndicator.timeLeft (EffectIndicator.advance 1000 s').
Proof.
  intro s'.
  apply (@countdown_non_increasing (EffectIndicator.mount 0 None) 0
           (mkEffect speedBoost 5000) 1000 3000); lia.
Defined.

(** ** The canvas: repeated frames, score board, grid *)

Section CanvasMore.
Import GameCanvas Loops.

Lemma drawUI_lines_baseline (playerId : option string) (l : list Snake) :
  forall y c, textBaseline (drawUI_lines l playerId y c) = textBaseline c.
Proof.
  induction l as [|s rest IH]; intros y c; simpl; [reflexivity|].
  now rewrite IH.
Qed.

(** The baseline a frame leaves behind is the one its score board was
    drawn with. *)
Lemma paint_baseline (gs : GameState) (playerId : option string)
  (c : Context) :
  textBaseline (paint gs playerId c)
  = match food gs with [] => textBaseline c | _ => "middle" end.
Proof.
  unfold paint, drawUI, then_. cbv zeta.
  rewrite drawUI_lines_baseline.
  cbn [textBaseline set_textAlign set_font set_fillStyle].
  match goal with
  | |- textBaseline (forEach (snakes gs) ?f ?c4) = _ =>
      destruct (@snakes_surface playerId (snakes gs)
                  (textBaseline c4) c4 eq_refl) as [B _];
      cbv zeta in B; rewrite B
  end.
  unfold forEach at 1. rewrite food_baseline.
  match goal with
  | |- match _ with [] => textBaseline (for_upto ?h ?b2 (for_upto ?w ?b1 ?c1))
                 | _ => _ end = _ =>
      assert (S1 : styled "#1a1a1a" "#444" 0.5 (textBaseline c) c1)
        by (repeat split);
      destruct (@grid_surface w
                  (fun i => [MoveTo (i * CELL_SIZE) 0;
                             LineTo (i * CELL_SIZE)
                               (or_default (gameHeight gs) 60 * CELL_SIZE)])
                  b1 _ _ c1 ltac:(intros; reflexivity) S1) as [S2 _];
      destruct (@grid_surface h
                  (fun i => [MoveTo 0 (i * CELL_SIZE);
                             LineTo (or_default (gameWidth gs) 100 * CELL_SIZE)
                               (i * CELL_SIZE)])
                  b2 _ _ _ ltac:(intros; reflexivity) S2)
        as [(_ & _ & _ & B3) _];
      rewrite B3
  end.
  reflexivity.
Qed.

Lemma frame_baseline_fixed (gs : GameState) (playerId : option string)
  (baseline0 : string) :
  Spec.frame gs playerId
    (match food gs with [] => baseline0 | _ => "middle" end)
  = Spec.frame gs playerId baseline0.
Proof.
  unfold Spec.frame, Spec.layer_hud. destruct (food gs); reflexivity.
Qed.

Lemma hud_lines_nth (playerId : option string) (baseline : string)
  (l : list Snake) :
  forall (y : Z) (i : nat) (s : Snake),
    nth_error l i = Some s ->
    nth_error (Spec.hud_lines l playerId baseline y) i
    = Some (FillText (if is_id playerId s then "#4CAF50" else "#2196F3")
              "bold 14px Arial" "left" baseline
              (hud_text s (is_id playerId s)) 10 (y + 25 * Z.of_nat i)).
Proof.
  induction l as [|s0 rest IH]; intros y i s Hn.
  - destruct i; discriminate.
  - destruct i as [|i]; simpl in Hn |- *.
    + injection Hn as <-. rewrite Z.add_0_r. reflexivity.
    + rewrite (IH (y + 25) i s Hn). do 2 f_equal. lia.
Qed.

Lemma hud_lines_length (playerId : option string) (baseline : string)
  (l : list Snake) :
  forall y, List.length (Spec.hud_lines l playerId baseline y)
            = List.length l.
Proof.
  induction l as [|s rest IH]; intro y; simpl; [reflexivity|].
  now rewrite IH.
Qed.

Lemma upto_bounds (n i : Z) : In i (Spec.upto n) -> 0 <= i <= n.
Proof.
  unfold Spec.upto. intro H. apply in_map_iff in H as (k & <- & Hk).
  apply in_seq in Hk. lia.
Qed.

Lemma upto_length (n : Z) :
  0 <= n -> Z.of_nat (List.length (Spec.upto n)) = n + 1.
Proof.
  intro H. unfold Spec.upto. rewrite length_map, length_seq. lia.
Qed.

Lemma snake_draws_no_stroke (playerId : option string) (s : Snake) :
  Forall (fun d => is_true (negb (Traces.is_stroke d)))
         (Spec.snake_draws playerId s).
Proof.
  unfold Spec.snake_draws. destruct (body s) as [|p rest];
    [constructor|].
  apply Forall_app. split.
  - unfold Spec.segment_draws. destruct (alive s); repeat constructor.
  - apply Forall_flat_map, Forall_forall. intros q _.
    unfold Spec.segment_draws. repeat constructor.
Qed.

Lemma hud_lines_no_stroke (playerId : option string) (baseline : string)
  (l : list Snake) :
  forall y, Forall (fun d => is_true (negb (Traces.is_stroke d)))
                   (Spec.hud_lines l playerId baseline y).
Proof.
  induction l as [|s rest IH]; intro y; simpl; constructor;
    [reflexivity | apply IH].
Qed.

Lemma on_canvas_no_stroke (w h : Z) (l : list Draw) :
  Forall (fun d => is_true (negb (Traces.is_stroke d))) l ->
  filter Traces.is_stroke l = [] /\ Forall (Traces.on_canvas w h) l.
Proof.
  induction 1 as [|d l Hd _ [IH1 IH2]]; simpl; [split; constructor|].
  destruct d; simpl in Hd; try discriminate; simpl;
    (split; [exact IH1 | constructor; [exact I | exact IH2]]).
Qed.

End CanvasMore.

(** X10.  Rendering is idempotent.  Two runs of the render effect on the
    same snapshot and local id add the same sequence of operations to
    the surface, whatever state the context was in before the first
    run; and each frame begins by filling the whole canvas with the
    background colour, so nothing of an earlier frame stays visible. *)
Theorem render_twice_same_frame :
  forall (ctx : GameCanvas.Context) (gs : GameState)
         (playerId : option string),
    exists c1 c2 rest,
      GameCanvas.render (Some (GameCanvas.mkCanvas (Some ctx))) (Some gs)
                        playerId = Ok c1
      /\ GameCanvas.render c1 (Some gs) playerId = Ok c2
      /\ let frame :=
            GameCanvas.FillRect "#1a1a1a" 0 0
              (GameCanvas.or_default (gameWidth gs) 100 * 12)
              (GameCanvas.or_default (gameHeight gs) 60 * 12) :: rest in
          GameCanvas.pixels c1 = GameCanvas.surface ctx ++ frame
          /\ GameCanvas.pixels c2 = GameCanvas.pixels c1 ++ frame.
Proof.
  intros ctx gs playerId.
  eexists. eexists.
  exists (Spec.layer_grid gs ++ Spec.layer_items gs
          ++ Spec.layer_snakes gs playerId
          ++ Spec.layer_hud gs playerId (GameCanvas.textBaseline ctx)).
  split; [reflexivity|]. split; [reflexivity|].
  cbn [GameCanvas.pixels].
  rewrite !paint_surface, paint_baseline, frame_baseline_fixed.
  split; reflexivity.
Qed.

(** X11.  The score board has one line per snake, in the order of the
    snapshot: the line of the snake at position [i] is drawn at x = 10,
    y = 20 + 25 i, in bold 14px Arial aligned left.  Its colour tells
    only whose snake it is (own or other), not whether it is alive: a
    dead snake keeps its colour here, and its being dead shows in the
    text alone. *)
Theorem score_board_lines :
  forall (snakes : list Snake) (playerId : option string)
         (ctx : GameCanvas.Context),
    exists lines,
      GameCanvas.surface (GameCanvas.drawUI snakes playerId ctx)
        = GameCanvas.surface ctx ++ lines
      /\ List.length lines = List.length snakes
      /\ forall (i : nat) (s : Snake),
           nth_error snakes i = Some s ->
           nth_error lines i
           = Some (GameCanvas.FillText
                     (if is_id playerId s then "#4CAF50" else "#2196F3")
                     "bold 14px Arial" "left" (GameCanvas.textBaseline ctx)
                     (GameCanvas.hud_text s (is_id playerId s))
                     10 (20 + 25 * Z.of_nat i)).
Proof.
  intros snakes playerId ctx.
  exists (Spec.hud_lines snakes playerId (GameCanvas.textBaseline ctx) 20).
  split; [|split].
  - unfold GameCanvas.drawUI, GameCanvas.then_.
    rewrite drawUI_lines_surface by reflexivity. reflexivity.
  - apply hud_lines_length.
  - intros i s Hn. apply hud_lines_nth. exact Hn.
Qed.

(** X12.  For a snapshot whose width and height are not negative (0
    standing for the defaults 100 and 60), a frame holds exactly
    [columns + 1] vertical and [rows + 1] horizontal grid lines and no
    other stroked path, and every end point of a grid line lies on the
    canvas, between 0 and [columns * 12] across and between 0 and
    [rows * 12] down. *)
Theorem grid_lines_on_canvas :
  forall (ctx : GameCanvas.Context) (gs : GameState)
         (playerId : option string),
    0 <= gameWidth gs -> 0 <= gameHeight gs ->
    let columns := GameCanvas.or_default (gameWidth gs) 100 in
    let rows := GameCanvas.or_default (gameHeight gs) 60 in
    exists frame,
      GameCanvas.surface (GameCanvas.paint gs playerId ctx)
        = GameCanvas.surface ctx ++ frame
      /\ Forall (Traces.on_canvas (columns * 12) (rows * 12)) frame
      /\ Z.of_nat (List.length (filter Traces.is_stroke frame))
         = (columns + 1) + (rows + 1).
Proof.
  intros ctx gs playerId Hw Hh columns rows.
  assert (Hc : 0 <= columns)
    by (unfold columns, GameCanvas.or_default;
        destruct (gameWidth gs =? 0); lia).
  assert (Hr : 0 <= rows)
    by (unfold rows, GameCanvas.or_default;
        destruct (gameHeight gs =? 0); lia).
  exists (Spec.frame gs playerId (GameCanvas.textBaseline ctx)).
  split; [apply paint_surface|].
  unfold Spec.frame.
  fold columns rows.
  assert (Bg : filter Traces.is_stroke (Spec.layer_background gs) = []
               /\ Forall (Traces.on_canvas (columns * 12) (rows * 12))
                         (Spec.layer_background gs))
    by (apply on_canvas_no_stroke; repeat constructor).
  assert (It : filter Traces.is_stroke (Spec.layer_items gs) = []
               /\ Forall (Traces.on_canvas (columns * 12) (rows * 12))
                         (Spec.layer_items gs)).
  { apply on_canvas_no_stroke. unfold Spec.layer_items.
    apply Forall_map, Forall_forall. intros; reflexivity. }
  assert (Sn : filter Traces.is_stroke (Spec.layer_snakes gs playerId) = []
               /\ Forall (Traces.on_canvas (columns * 12) (rows * 12))
                         (Spec.layer_snakes gs playerId)).
  { apply on_canvas_no_stroke. unfold Spec.layer_snakes.
    apply Forall_flat_map, Forall_forall. intros s _.
    apply snake_draws_no_stroke. }
  assert (Hu : filter Traces.is_stroke
                 (Spec.layer_hud gs playerId (GameCanvas.textBaseline ctx))
               = []
               /\ Forall (Traces.on_canvas (columns * 12) (rows * 12))
                         (Spec.layer_hud gs playerId
                            (GameCanvas.textBaseline ctx)))
    by (apply on_canvas_no_stroke, hud_lines_no_stroke).
  assert (Gr : filter Traces.is_stroke (Spec.layer_grid gs)
               = Spec.layer_grid gs
               /\ Forall (Traces.on_canvas (columns * 12) (rows * 12))
                         (Spec.layer_grid gs)).
  { unfold Spec.layer_grid. fold (Spec.columns gs) (Spec.rows gs).
    change (Spec.columns gs) with columns. change (Spec.rows gs) with rows.
    split.
    - rewrite filter_app. f_equal.
      + induction (Spec.upto columns) as [|i l IH]; simpl;
          [reflexivity | now rewrite IH].
      + induction (Spec.upto rows) as [|i l IH]; simpl;
          [reflexivity | now rewrite IH].
    - apply Forall_app. split; apply Forall_map, Forall_forall;
        intros i Hi; apply upto_bounds in Hi; simpl;
        repeat constructor; lia. }
  destruct Bg as [B1 B2], It as [I1 I2], Sn as [S1 S2], Hu as [H1 H2],
    Gr as [G1 G2].
  split.
  - apply Forall_app; split; [exact B2|].
    apply Forall_app; split; [exact G2|].
    apply Forall_app; split; [exact I2|].
    apply Forall_app; split; [exact S2 | exact H2].
  - rewrite !filter_app, B1, I1, S1, H1, G1, !app_nil_r. simpl.
    unfold Spec.layer_grid. rewrite length_app, !length_map.
    fold (Spec.columns gs) (Spec.rows gs).
    change (Spec.columns gs) with columns. change (Spec.rows gs) with rows.
    rewrite Nat2Z.inj_add, !upto_length by assumption. reflexivity.
Qed.

Lemma grid_lines_on_canvas_witness :
  let ctx := GameCanvas.mkContext "#000" "#000" 1 "10px sans-serif" "start"
               "alphabetic" [] [] in
  let gs := mkGameState playing [] [] 0 3 in
  exists frame,
    GameCanvas.surface (GameCanvas.paint gs None ctx)
      = GameCanvas.surface ctx ++ frame
    /\ Forall (Traces.on_canvas (100 * 12) (3 * 12)) frame
    /\ Z.of_nat (List.length (filter Traces.is_stroke frame))
       = (100 + 1) + (3 + 1).
Proof.
  intros ctx gs.
  apply (@grid_lines_on_canvas ctx gs None); simpl; lia.
Defined.

(** ** The page: what events and time do to it *)

Section HomeMore.
Import Home HomeAux.

Lemma fire_ws (d : Z) (h : State) : ws (fire d h) = ws h.
Proof. unfold fire. now rewrite settle_ws. Qed.

Lemma advance_ws (t : Z) (h : State) : ws (advance t h) = ws h.
Proof.
  unfold advance.
  change (ws h) with (ws (set_timeouts (filter (fun d => t <? d) (timeouts h)) h)).
  generalize (set_timeouts (filter (fun d => t <? d) (timeouts h)) h).
  induction (filter (fun d => d <=? t) (timeouts h)) as [|d l IH];
    intro x; simpl; [reflexivity|].
  rewrite IH. apply fire_ws.
Qed.

Lemma deliver_sent (te : Z * UseWebSocket.Event) (h : State) :
  UseWebSocket.sent (ws (deliver te h)) = UseWebSocket.sent (ws h).
Proof.
  unfold deliver, receive. rewrite settle_ws. cbn [ws set_ws].
  unfold UseWebSocket.sent. rewrite on_keeps_socket, advance_ws.
  reflexivity.
Qed.

(** Rendering to quiescence changes [showGame] only through the status
    effect, and only to switch the game on. *)
Lemma settle_showGame (now : Z) (x : State) :
  showGame (settle now x)
  = if status_changed x
    then match cur_status x with Some playing => true | _ => showGame x end
    else showGame x.
Proof.
  destruct (settle_cases now x)
    as [[Q ->] | [(_ & _ & ->) | (_ & _ & ->)]].
  - rewrite quiescent_split in Q. apply andb_prop in Q as [Q _].
    apply negb_true_iff in Q. now rewrite Q.
  - rewrite commit_eq. reflexivity.
  - rewrite (commit_eq now (commit now x)), commit_status_changed.
    cbn [showGame]. rewrite commit_eq. reflexivity.
Qed.

Lemma quiescent_status (h : State) :
  quiescent h = true -> statusDeps h = Some (cur_status h).
Proof.
  intro Q. rewrite quiescent_split in Q. apply andb_prop in Q as [Q _].
  apply negb_true_iff in Q. now apply status_changed_false.
Qed.

(** The game is never shown before a snapshot has arrived. *)
Lemma shown_has_snapshot_settle (now : Z) (x : State) :
  (showGame x = true -> UseWebSocket.gameState (ws x) <> None) ->
  showGame (settle now x) = true ->
  UseWebSocket.gameState (ws (settle now x)) <> None.
Proof.
  intros H. rewrite settle_ws, settle_showGame.
  destruct (status_changed x); [|exact H].
  unfold cur_status.
  destruct (UseWebSocket.gameState (ws x)) as [[k gs]|]; [discriminate|].
  exact H.
Qed.

Lemma shown_has_snapshot_advance (t : Z) (h : State) :
  (showGame h = true -> UseWebSocket.gameState (ws h) <> None) ->
  showGame (advance t h) = true ->
  UseWebSocket.gameState (ws (advance t h)) <> None.
Proof.
  unfold advance. intro H.
  assert (H0 : showGame (set_timeouts (filter (fun d => t <? d) (timeouts h)) h)
               = true ->
               UseWebSocket.gameState
                 (ws (set_timeouts (filter (fun d => t <? d) (timeouts h)) h))
               <> None) by exact H.
  revert H0.
  generalize (set_timeouts (filter (fun d => t <? d) (timeouts h)) h).
  induction (filter (fun d => d <=? t) (timeouts h)) as [|d l IH];
    intros x Hx; simpl; [exact Hx|].
  apply IH. unfold fire. apply shown_has_snapshot_settle.
  cbn [showGame setShowGame]. discriminate.
Qed.

Lemma shown_has_snapshot (h : State) :
  reachable h ->
  showGame h = true -> UseWebSocket.gameState (ws h) <> None.
Proof.
  induction 1 as [now | te h _ IH | t h _ IH | now key h h' _ IH Hk].
  - vm_compute. discriminate.
  - unfold deliver, receive. apply shown_has_snapshot_settle.
    cbn [showGame ws set_ws]. intro Hs.
    pose proof (shown_has_snapshot_advance (fst te) h IH Hs) as Ha.
    destruct (snd te); cbn [UseWebSocket.on UseWebSocket.gameState];
      try exact Ha; discriminate.
  - apply shown_has_snapshot_advance, IH.
  - unfold keydown in Hk.
    destruct (showGame (advance now h)) eqn:Sa.
    + pose proof (shown_has_snapshot_advance now h IH Sa) as Ha.
      unfold Keyboard.handleKeyDown in Hk.
      assert (Hgen : forall w' t',
                 UseWebSocket.gameState w'
                 = UseWebSocket.gameState (ws (advance now h)) ->
                 showGame (settle now
                             (setLastKeyTime t' (set_ws w' (advance now h))))
                 = true ->
                 UseWebSocket.gameState
                   (ws (settle now
                          (setLastKeyTime t' (set_ws w' (advance now h)))))
                 <> None).
      { intros w' t' E. apply shown_has_snapshot_settle.
        cbn [ws showGame setLastKeyTime set_ws]. rewrite E. intros _.
        exact Ha. }
      destruct (now - lastKeyTime (advance now h) <? 50).
      * simpl in Hk. injection Hk as <-. apply Hgen. reflexivity.
      * destruct (Keyboard.key_direction key) as [dir|].
        -- destruct (UseWebSocket.sendMove dir (ws (advance now h)))
             as [w'|err] eqn:Es; simpl in Hk; [|discriminate].
           injection Hk as <-.
           apply Hgen. apply (sendMove_keeps_snapshot _ _ Es).
        -- simpl in Hk. injection Hk as <-. apply Hgen. reflexivity.
    + injection Hk as <-. rewrite Sa. discriminate.
Qed.

End HomeMore.

(** X13.  Handling socket events and letting timeouts run never puts
    anything on the transport: after any sequence of socket events,
    with the timeouts that fall due between them, the calls of [emit]
    are those made before.  Only key events send. *)
Theorem page_never_sends_on_its_own :
  forall (trace : list (Z * UseWebSocket.Event)) (h : Home.State) (t : Z),
    UseWebSocket.sent (Home.ws (Home.advance t (Home.run trace h)))
    = UseWebSocket.sent (Home.ws h).
Proof.
  intros trace h t. rewrite advance_ws. revert h.
  induction trace as [|te trace IH]; intro h; simpl; [reflexivity|].
  unfold Home.run in IH. rewrite IH. apply deliver_sent.
Qed.

(** X14.  The passing of time acts on the page through its timeouts
    only.  When the clock reaches [t], the flag is false if some pending
    timeout was due by then, whatever the snapshot held says, and is
    what it was otherwise; the timeouts left are those due after [t];
    the hook's state and the exposed effect are as before. *)
Theorem time_only_fires_timeouts :
  forall (h : Home.State) (t : Z),
    Home.reachable h ->
    Home.showGame (Home.advance t h)
      = (if existsb (fun d => d <=? t) (Home.timeouts h) then false
         else Home.showGame h)
    /\ Home.timeouts (Home.advance t h)
       = filter (fun d => t <? d) (Home.timeouts h)
    /\ Home.ws (Home.advance t h) = Home.ws h
    /\ Home.activeEffect (Home.advance t h) = Home.activeEffect h.
Proof.
  intros h t Hr. destruct (reachable_settled Hr) as [Q _].
  destruct (advance_settled t h Q) as (A1 & A2 & A3 & A4 & _).
  repeat split; assumption.
Qed.

Lemma time_only_fires_timeouts_witness :
  let me alive := mkSnake "p1" [mkPoint 1 1] alive 0 [] in
  let gs alive := mkGameState playing [me alive] [] 100 60 in
  let h := Home.run
             [(0, UseWebSocket.connect (Some "p1"));
              (10, UseWebSocket.gameStateEv (gs true));
              (100, UseWebSocket.gameStateEv (gs false))] (Home.mount 0) in
  Home.showGame (Home.advance 1100 h) = false
  /\ Home.timeouts (Home.advance 1100 h) = [].
Proof.
  intros me gs h.
  destruct (@time_only_fires_timeouts h 1100
              (Home.reach_deliver _
                 (Home.reach_deliver _
                    (Home.reach_deliver _ (Home.reach_mount 0)))))
    as (H1 & H2 & _).
  split; [exact H1 | exact H2].
Defined.

(** X15.  No socket event hides the game on this page, and only one
    kind shows it: after an event has been handled, the flag is true if
    the event is a snapshot with status [playing] and the snapshot held
    before had another status (or there was none), and is unchanged in
    every other case.  A snapshot that says [playing] again after the
    view was hidden does not bring it back, and [lobby] and [finished]
    never hide it. *)
Theorem socket_event_and_flag :
  forall (h : Home.State) (now : Z) (e : UseWebSocket.Event),
    Home.reachable h ->
    Home.showGame (Home.receive now e h)
    = match e with
      | UseWebSocket.gameStateEv gs =>
          match status gs, Home.cur_status h with
          | playing, Some playing => Home.showGame h
          | playing, _ => true
          | _, _ => Home.showGame h
          end
      | _ => Home.showGame h
      end.
Proof.
  intros h now e Hr. destruct (reachable_settled Hr) as [Q _].
  pose proof (quiescent_status h Q) as Hd.
  unfold Home.receive. rewrite settle_showGame.
  unfold HomeAux.status_changed.
  cbn [Home.statusDeps Home.set_ws Home.showGame]. rewrite Hd.
  unfold Home.cur_status. cbn [Home.ws Home.set_ws].
  destruct e; cbn [UseWebSocket.on UseWebSocket.gameState];
    try (destruct (Home.StatusDeps_eq_dec _ _) as [_|N];
         [reflexivity | exfalso; apply N; reflexivity]).
  destruct (UseWebSocket.gameState (Home.ws h)) as [[k g]|];
    destruct (Home.StatusDeps_eq_dec _ _) as [E|N];
    destruct (status st) eqn:Est; try reflexivity;
    try (destruct (status g) eqn:Eg; try reflexivity; congruence);
    congruence.
Qed.

Lemma socket_event_and_flag_witness :
  let gs := mkGameState playing [] [] 100 60 in
  Home.showGame
    (Home.receive 10 (UseWebSocket.gameStateEv gs) (Home.mount 0)) = true.
Proof.
  intro gs.
  exact (@socket_event_and_flag (Home.mount 0) 10
           (UseWebSocket.gameStateEv gs) (Home.reach_mount 0)).
Defined.

(** X16.  The game view is never shown before a snapshot has arrived:
    in every state the page can reach, if the flag is true the hook
    holds a snapshot. *)
Theorem shown_only_with_snapshot :
  forall h : Home.State,
    Home.reachable h -> Home.showGame h = true ->
    exists stamp gs,
      UseWebSocket.gameState (Home.ws h) = Some (stamp, gs).
Proof.
  intros h Hr Hs. pose proof (shown_has_snapshot Hr Hs) as H.
  destruct (UseWebSocket.gameState (Home.ws h)) as [[k gs]|];
    [eauto | congruence].
Qed.

Lemma shown_only_with_snapshot_witness :
  let gs := mkGameState playing [] [] 100 60 in
  let h := Home.deliver (10, UseWebSocket.gameStateEv gs) (Home.mount 0) in
  exists stamp gs', UseWebSocket.gameState (Home.ws h) = Some (stamp, gs').
Proof.
  intros gs h.
  exact (@shown_only_with_snapshot h
           (Home.reach_deliver _ (Home.reach_mount 0)) eq_refl).
Defined.

(** ** The game page *)

Section GameMore.

Lemma game_run_snoc (evs : list UseWebSocket.Event) (e : UseWebSocket.Event)
  (g : Game.State) :
  Traces.game_run (evs ++ [e]) g = Game.receive e (Traces.game_run evs g).
Proof. unfold Traces.game_run. now rewrite fold_left_app. Qed.

(** The flag agrees with the last snapshot that was not [finished], and
    the status held agrees with it too unless it is [finished]. *)
Lemma game_flag_inv (evs : list UseWebSocket.Event) :
  let g := Traces.game_run evs Traces.game_mount in
  Game.showGame g
  = match Traces.last_of Traces.shown_status evs with
    | Some playing => true
    | _ => false
    end
  /\ match Traces.game_status g with
     | None => Traces.last_of Traces.shown_status evs = None
     | Some finished => True
     | Some other => Traces.last_of Traces.shown_status evs = Some other
     end.
Proof.
  induction evs as [|e evs IH] using rev_ind.
  - split; reflexivity.
  - cbv zeta in *. rewrite game_run_snoc, last_of_snoc.
    set (g := Traces.game_run evs Traces.game_mount) in *.
    set (shown := Traces.last_of Traces.shown_status evs) in *.
    destruct IH as [I1 I2].
    assert (Hother : forall w',
               UseWebSocket.gameState w' = UseWebSocket.gameState (Game.ws g) ->
               let g' := Game.statusEffect
                           (Game.mkState w' (Game.lastKeyTime g)
                                         (Game.showGame g)) in
               Game.showGame g'
               = match shown with Some playing => true | _ => false end
               /\ match Traces.game_status g' with
                  | None => shown = None
                  | Some finished => True
                  | Some other => shown = Some other
                  end).
    { intros w' E. unfold Traces.game_status, Game.statusEffect in *.
      cbn [Game.ws Game.showGame Game.lastKeyTime]. rewrite E.
      destruct (UseWebSocket.gameState (Game.ws g)) as [[k gs]|].
      - destruct (status gs) eqn:Es;
          cbn [Game.ws Game.showGame]; rewrite E, ?Es.
        + rewrite I2. split; reflexivity.
        + rewrite I2. split; reflexivity.
        + split; [exact I1 | exact I].
      - cbn [Game.ws Game.showGame]. rewrite E, I2. split; reflexivity. }
    unfold Game.receive.
    destruct e; cbn [UseWebSocket.on Traces.shown_status];
      try (apply Hother; reflexivity).
    unfold Traces.game_status, Game.statusEffect.
    cbn [Game.ws Game.showGame Game.lastKeyTime UseWebSocket.gameState].
    destruct (status st) eqn:Es;
      cbn [Game.ws Game.showGame UseWebSocket.gameState]; rewrite ?Es.
    + split; reflexivity.
    + split; reflexivity.
    + split; [exact I1 | exact I].
Qed.

End GameMore.

(** X17.  On the game page the flag follows the status of the
    snapshots.  After any sequence of socket events from the first
    render on, the game is shown exactly when the last snapshot whose
    status is not [finished] has status [playing]: a [lobby] snapshot
    hides it, a [finished] one leaves it as it is, and without any
    snapshot it is hidden. *)
Theorem game_page_flag_follows_status :
  forall evs : list UseWebSocket.Event,
    Game.showGame (Traces.game_run evs Traces.game_mount)
    = match Traces.last_of Traces.shown_status evs with
      | Some playing => true
      | _ => false
      end.
Proof. intro evs. apply (game_flag_inv evs). Qed.

(** ** The page: snapshots, keys and what is on screen *)

Section PageMore.
Import Home HomeAux.

Lemma quiescent_frame (h x : State) :
  cur_status x = cur_status h -> cur_snakes x = cur_snakes h ->
  UseWebSocket.playerId (ws x) = UseWebSocket.playerId (ws h) ->
  showGame x = showGame h ->
  statusDeps x = statusDeps h -> deathDeps x = deathDeps h ->
  quiescent x = quiescent h.
Proof.
  intros E1 E2 E3 E4 E5 E6. unfold quiescent, cur_deathDeps.
  rewrite E1, E2, E3, E4, E5, E6. reflexivity.
Qed.

Lemma settle_quiet (now : Z) (x : State) :
  quiescent x = true -> settle now x = x.
Proof. intro Q. unfold settle. simpl. now rewrite Q. Qed.

(** A key event on a settled page: only [lastKeyTime] and the socket
    can differ afterwards. *)
Lemma keydown_frame (now : Z) (key : string) (h h' : State) :
  quiescent h = true -> keydown now key h = Ok h' ->
  showGame h' = showGame h /\ activeEffect h' = activeEffect h
  /\ timeouts h' = timeouts h
  /\ UseWebSocket.gameState (ws h') = UseWebSocket.gameState (ws h)
  /\ UseWebSocket.playerId (ws h') = UseWebSocket.playerId (ws h)
  /\ UseWebSocket.isConnected (ws h') = UseWebSocket.isConnected (ws h).
Proof.
  intros Q Hk. unfold keydown in Hk.
  destruct (showGame h) eqn:Sh;
    [|injection Hk as <-; repeat split; exact Sh].
  assert (Hgen : forall w' t',
             UseWebSocket.gameState w' = UseWebSocket.gameState (ws h) ->
             UseWebSocket.playerId w' = UseWebSocket.playerId (ws h) ->
             settle now (setLastKeyTime t' (set_ws w' h))
             = setLastKeyTime t' (set_ws w' h)).
  { intros w' t' E1 E2. apply settle_quiet. rewrite <- Q.
    apply quiescent_frame; try reflexivity.
    - unfold cur_status. cbn [ws setLastKeyTime set_ws]. now rewrite E1.
    - unfold cur_snakes. cbn [ws setLastKeyTime set_ws]. now rewrite E1.
    - exact E2. }
  unfold Keyboard.handleKeyDown in Hk.
  destruct (now - lastKeyTime h <? 50).
  - simpl in Hk. injection Hk as <-.
    rewrite Hgen by reflexivity.
    cbn [showGame activeEffect timeouts ws setLastKeyTime set_ws].
    repeat split; exact Sh.
  - destruct (Keyboard.key_direction key) as [dir|].
    + destruct (sendMove_cases dir (ws h))
        as (w' & Es & _ & E1 & _ & E3 & E4).
      rewrite Es in Hk. simpl in Hk. injection Hk as <-.
      rewrite Hgen by assumption.
      cbn [showGame activeEffect timeouts ws setLastKeyTime set_ws].
      repeat split; assumption.
    + simpl in Hk. injection Hk as <-.
      rewrite Hgen by reflexivity.
      cbn [showGame activeEffect timeouts ws setLastKeyTime set_ws].
      repeat split; exact Sh.
Qed.

End PageMore.

(** X18.  Timeouts pile up and are never taken back by a snapshot.
    After a snapshot has been processed at time [t], the pending
    timeouts are those that were pending and due after [t], in their
    order, followed by one more, due at [t + 1000], exactly when the
    game view is showing, a non-empty local id is known and the local
    player is in the snapshot and dead.  So each snapshot that shows the
    local player dead adds a timeout of its own, and a snapshot that
    shows the player alive removes none. *)
Theorem snapshot_and_timeouts :
  forall (h : Home.State) (t : Z) (gs : GameState),
    Home.reachable h ->
    let h' := Home.deliver (t, UseWebSocket.gameStateEv gs) h in
    let localId := UseWebSocket.playerId (Home.ws h') in
    Home.timeouts h'
    = filter (fun d => t <? d) (Home.timeouts h)
      ++ (if Home.showGame h' && truthy localId
             && Spec.local_dead localId gs
          then [t + 1000] else []).
Proof.
  intros h t gs Hr h' localId.
  destruct (reachable_settled Hr) as [Q S].
  destruct (advance_settled t h Q) as (_ & _ & _ & A4 & A5).
  pose proof (advance_stamps_ok t S) as AS.
  destruct (@receive_snapshot t gs (Home.advance t h) A5 AS)
    as (R1 & _ & _ & R4).
  unfold localId, h', Home.deliver. cbn [fst snd].
  rewrite R4, R1, A4. reflexivity.
Qed.

Lemma snapshot_and_timeouts_witness :
  let me alive := mkSnake "p1" [mkPoint 1 1] alive 0 [] in
  let gs alive := mkGameState playing [me alive] [] 100 60 in
  Home.timeouts
    (Home.run
       [(0, UseWebSocket.connect (Some "p1"));
        (10, UseWebSocket.gameStateEv (gs true));
        (100, UseWebSocket.gameStateEv (gs false));
        (200, UseWebSocket.gameStateEv (gs false))] (Home.mount 0))
  = [1100; 1200].
Proof.
  intros me gs.
  exact (@snapshot_and_timeouts
           (Home.run
              [(0, UseWebSocket.connect (Some "p1"));
               (10, UseWebSocket.gameStateEv (gs true));
               (100, UseWebSocket.gameStateEv (gs false))] (Home.mount 0))
           200 (gs false)
           (Home.reach_deliver _
              (Home.reach_deliver _
                 (Home.reach_deliver _ (Home.reach_mount 0))))).
Defined.

(** X19.  A key event changes nothing of what the page shows: the flag,
    the exposed effect, the pending timeouts, the snapshot, the local id
    and the connection flag are as before; only [lastKeyTime] and the
    messages emitted can differ.  And the handler never raises. *)
Theorem key_event_frame :
  forall (h : Home.State) (now : Z) (key : string),
    Home.reachable h ->
    exists h',
      Home.keydown now key h = Ok h'
      /\ Home.showGame h' = Home.showGame h
      /\ Home.activeEffect h' = Home.activeEffect h
      /\ Home.timeouts h' = Home.timeouts h
      /\ UseWebSocket.gameState (Home.ws h')
         = UseWebSocket.gameState (Home.ws h)
      /\ UseWebSocket.playerId (Home.ws h')
         = UseWebSocket.playerId (Home.ws h)
      /\ UseWebSocket.isConnected (Home.ws h')
         = UseWebSocket.isConnected (Home.ws h).
Proof.
  intros h now key Hr. destruct (reachable_settled Hr) as [Q _].
  assert (Hok : exists h', Home.keydown now key h = Ok h').
  { unfold Home.keydown. destruct (Home.showGame h); [|eauto].
    unfold Keyboard.handleKeyDown.
    destruct (now - Home.lastKeyTime h <? 50); [simpl; eauto|].
    destruct (Keyboard.key_direction key) as [dir|]; [|simpl; eauto].
    destruct (sendMove_total dir (Home.ws h)) as [w' ->]. simpl. eauto. }
  destruct Hok as [h' Hk]. exists h'. split; [exact Hk|].
  exact (@keydown_frame now key h h' Q Hk).
Qed.

Lemma key_event_frame_witness :
  let gs := mkGameState playing [] [] 100 60 in
  let h := Home.run [(0, UseWebSocket.connect (Some "p1"));
                     (10, UseWebSocket.gameStateEv gs)] (Home.mount 0) in
  exists h',
    Home.keydown 1000 "d" h = Ok h' /\ Home.showGame h' = Home.showGame h.
Proof.
  intros gs h.
  destruct (@key_event_frame h 1000 "d"
              (Home.reach_deliver _
                 (Home.reach_deliver _ (Home.reach_mount 0))))
    as (h' & H1 & H2 & _).
  exists h'. split; [exact H1 | exact H2].
Defined.

(** X20.  What is on screen.  The canvas is rendered exactly when the
    session is connected, the flag is true and the snapshot held has
    status [playing]; it then receives that snapshot and the local id.
    And when the game view shows its placeholder text instead of the
    canvas, this is never for want of a snapshot: the page holds one,
    and its status is [lobby] or [finished]. *)
Theorem canvas_on_screen :
  forall h : Home.State,
    Home.reachable h ->
    (forall effect gs localId,
       Screens.render h = Screens.GameScreen effect (Some (gs, localId))
       <-> (UseWebSocket.isConnected (Home.ws h) = true
            /\ Home.showGame h = true
            /\ effect = Home.activeEffect h
            /\ localId = UseWebSocket.playerId (Home.ws h)
            /\ status gs = playing
            /\ exists stamp,
                 UseWebSocket.gameState (Home.ws h) = Some (stamp, gs)))
    /\ (forall effect,
          Screens.render h = Screens.GameScreen effect None ->
          exists stamp gs,
            UseWebSocket.gameState (Home.ws h) = Some (stamp, gs)
            /\ status gs <> playing).
Proof.
  intros h Hr. pose proof (shown_has_snapshot Hr) as Hsnap.
  unfold Screens.render. split.
  - intros effect gs localId. split.
    + destruct (UseWebSocket.isConnected (Home.ws h)); [|discriminate].
      destruct (Home.showGame h); [|discriminate]. simpl.
      destruct (UseWebSocket.gameState (Home.ws h)) as [[k g]|];
        [|discriminate].
      destruct (status g) eqn:Es; try discriminate.
      intro E. injection E as <- <- <-. repeat split; eauto.
    + intros (Hc & Hs & -> & -> & Hp & k & Hg).
      rewrite Hc, Hs, Hg, Hp. reflexivity.
  - intro effect.
    destruct (UseWebSocket.isConnected (Home.ws h)); [|discriminate].
    destruct (Home.showGame h); [|discriminate]. simpl.
    specialize (Hsnap eq_refl).
    destruct (UseWebSocket.gameState (Home.ws h)) as [[k g]|];
      [|congruence].
    destruct (status g) eqn:Es; try discriminate; intros _;
      exists k, g; split; try reflexivity; congruence.
Qed.

Lemma canvas_on_screen_witness :
  let gs := mkGameState playing [] [] 100 60 in
  let h := Home.run [(0, UseWebSocket.connect (Some "p1"));
                     (10, UseWebSocket.gameStateEv gs)] (Home.mount 0) in
  Screens.render h = Screens.GameScreen None (Some (gs, Some "p1")).
Proof.
  intros gs h.
  apply (proj1 (@canvas_on_screen h
                  (Home.reach_deliver _
                     (Home.reach_deliver _ (Home.reach_mount 0))))).
  repeat split. exists 0%nat. reflexivity.
Defined.
